(** * Lucy chat interface: a shallow embedding of
      [src/features/lucy/components/lucy-chat-interface.tsx]

    The React component keeps five pieces of state ([useState]) and reacts to
    events through handlers.  Each handler is embedded as a function from the
    state its closure captured to the list of actions it performs, in program
    order; an [async] handler is cut at its [await] into the part that runs
    synchronously and the part that runs when the awaited promise settles.
    Applying the actions to the state gives the state of the next render. *)

From Stdlib Require Import String Ascii List ZArith NArith Bool Lia Permutation.
Import ListNotations.
Local Open Scope Z_scope.

(* ================================================================== *)
(** * JavaScript strings *)
(* ================================================================== *)

(** A JavaScript string is a sequence of UTF-16 code units. *)
Definition jsstring := list N.

(** An ASCII literal as a JavaScript string. *)
Definition js (s : string) : jsstring :=
  map N_of_ascii (list_ascii_of_string s).

(** [WhiteSpace] and [LineTerminator] of ECMAScript, the code units that
    [String.prototype.trim] strips: TAB, LF, VT, FF, CR, SP, NBSP, the
    [Zs] category (U+1680, U+2000..U+200A, U+202F, U+205F, U+3000),
    LS, PS and the byte order mark. *)
Definition isWhiteSpace (c : N) : bool :=
  ((9 <=? c) && (c <=? 13) || (c =? 32) || (c =? 160) || (c =? 5760)
   || (8192 <=? c) && (c <=? 8202) || (c =? 8232) || (c =? 8233)
   || (c =? 8239) || (c =? 8287) || (c =? 12288) || (c =? 65279))%N.

Fixpoint trimStart (s : jsstring) : jsstring :=
  match s with
  | [] => []
  | c :: rest => if isWhiteSpace c then trimStart rest else s
  end.

Definition trimEnd (s : jsstring) : jsstring := rev (trimStart (rev s)).

(** [s.trim()] *)
Definition trim (s : jsstring) : jsstring := trimEnd (trimStart s).

(** Truthiness of a string: only the empty string is falsy. *)
Definition truthy (s : jsstring) : bool :=
  match s with [] => false | _ :: _ => true end.

(** [s.startsWith(p)] *)
Fixpoint startsWith (s p : jsstring) : bool :=
  match p, s with
  | [], _ => true
  | _ :: _, [] => false
  | x :: p', y :: s' => (x =? y)%N && startsWith s' p'
  end.

(** [s.split(',')]: the pieces between the commas (code unit 44); the
    accumulator holds the piece being read, reversed. *)
Fixpoint split_comma_from (acc s : jsstring) : list jsstring :=
  match s with
  | [] => [rev acc]
  | c :: rest =>
      if (c =? 44)%N then rev acc :: split_comma_from [] rest
      else split_comma_from (c :: acc) rest
  end.

Definition split_comma (s : jsstring) : list jsstring := split_comma_from [] s.

(* ================================================================== *)
(** * Types of the component *)
(* ================================================================== *)

Inductive AssetType := image_asset | video_asset | audio_asset.

(** [interface Asset].  [url] and [prompt] are [string | null]; [cost] and
    [createdAt] are carried along and never inspected by the handlers. *)
Record Asset := {
  asset_id : jsstring;
  asset_type : AssetType;
  asset_url : option jsstring;
  asset_prompt : option jsstring;
  asset_cost : Z;
  asset_model : jsstring;
  asset_createdAt : Z
}.

Inductive AttachmentType := image | audio.

(** An entry of the [attachments] state.  [data] is the second piece of the
    data URL split at commas, [undefined] ([None]) when there is none. *)
Record Attachment := {
  data : option jsstring;
  mimeType : jsstring;
  att_type : AttachmentType
}.

(** The value of the [cinemaData] state. *)
Record CinemaData := {
  videos : list Asset;
  cinema_audio : option Asset
}.

(** The five [useState] cells of [LucyChatInterface]. *)
Record UIState := {
  inputValue : jsstring;
  attachments : list Attachment;
  assets : list Asset;
  showCinema : bool;
  cinemaData : option CinemaData
}.

Definition initialUI : UIState :=
  {| inputValue := []; attachments := []; assets := [];
     showCinema := false; cinemaData := None |}.

(** What [getAssets(50)] resolves to. *)
Record AssetsResult := {
  assets_success : bool;
  assets_list : option (list Asset)
}.

(** What [getCinemaData()] resolves to. *)
Record CinemaResult := {
  cinema_success : bool;
  cinema_data : option CinemaData
}.

(* ================================================================== *)
(** * Actions of the handlers *)
(* ================================================================== *)

(** How an awaited promise settles. *)
Inductive Settled := Fulfilled | Rejected.

(** What a handler does, one constructor per call it makes. *)
Inductive Action :=
| SetInputValue (v : jsstring)
| SetAttachments (v : list Attachment)
| AppendAttachment (a : Attachment)     (* setAttachments(prev => [...prev, a]) *)
| FilterAttachment (index : nat)        (* setAttachments(prev => prev.filter((_, i) => i !== index)) *)
| SetAssets (v : list Asset)
| SetCinemaData (d : CinemaData)
| SetShowCinema (b : bool)
| GetAssets (limit : Z)                 (* await getAssets(limit) *)
| GetCinemaData                         (* await getCinemaData() *)
| SendUserMessage (text : jsstring) (atts : list Attachment)
                                        (* await sendUserMessage(text, atts) *)
| SetTimeoutLoadAssets (ms : Z).        (* setTimeout(loadAssets, ms) *)

(** [prev.filter((_, i) => i !== index)] *)
Fixpoint remove_at {A} (index : nat) (l : list A) {struct l} : list A :=
  match l, index with
  | [], _ => []
  | _ :: rest, O => rest
  | x :: rest, S k => x :: remove_at k rest
  end.

(** The state update an action queues; calls to the outside leave the
    state alone. *)
Definition apply_action (ui : UIState) (a : Action) : UIState :=
  match a with
  | SetInputValue v =>
      {| inputValue := v; attachments := attachments ui; assets := assets ui;
         showCinema := showCinema ui; cinemaData := cinemaData ui |}
  | SetAttachments v =>
      {| inputValue := inputValue ui; attachments := v; assets := assets ui;
         showCinema := showCinema ui; cinemaData := cinemaData ui |}
  | AppendAttachment x =>
      {| inputValue := inputValue ui; attachments := attachments ui ++ [x];
         assets := assets ui;
         showCinema := showCinema ui; cinemaData := cinemaData ui |}
  | FilterAttachment i =>
      {| inputValue := inputValue ui;
         attachments := remove_at i (attachments ui);
         assets := assets ui;
         showCinema := showCinema ui; cinemaData := cinemaData ui |}
  | SetAssets v =>
      {| inputValue := inputValue ui; attachments := attachments ui;
         assets := v;
         showCinema := showCinema ui; cinemaData := cinemaData ui |}
  | SetCinemaData d =>
      {| inputValue := inputValue ui; attachments := attachments ui;
         assets := assets ui;
         showCinema := showCinema ui; cinemaData := Some d |}
  | SetShowCinema b =>
      {| inputValue := inputValue ui; attachments := attachments ui;
         assets := assets ui;
         showCinema := b; cinemaData := cinemaData ui |}
  | GetAssets _ | GetCinemaData | SendUserMessage _ _
  | SetTimeoutLoadAssets _ => ui
  end.

Definition apply_actions (ui : UIState) (acts : list Action) : UIState :=
  fold_left apply_action acts ui.

(* ================================================================== *)
(** * Asset gallery: [loadAssets] *)
(* ================================================================== *)

(** [const result = await getAssets(50);] *)
Definition loadAssets : list Action := [GetAssets 50].

(** [if (result.success && result.assets) setAssets(result.assets);]
    An array, even an empty one, is truthy. *)
Definition loadAssets_resume (result : AssetsResult) : list Action :=
  match assets_success result, assets_list result with
  | true, Some fetched => [SetAssets fetched]
  | _, _ => []
  end.

(* ================================================================== *)
(** * Cinema mode *)
(* ================================================================== *)

(** [const result = await getCinemaData();] *)
Definition handleCinemaMode : list Action := [GetCinemaData].

(** [if (result.success && result.data) { setCinemaData(result.data);
    setShowCinema(true); }] *)
Definition handleCinemaMode_resume (result : CinemaResult) : list Action :=
  match cinema_success result, cinema_data result with
  | true, Some d => [SetCinemaData d; SetShowCinema true]
  | _, _ => []
  end.

(** [handleVideoEnd], as the next value of [currentIndex]. *)
Definition handleVideoEnd (vs : list Asset) (currentIndex : Z) : Z :=
  if currentIndex <? Z.of_nat (length vs) - 1
  then currentIndex + 1
  else 0.

(** The indices shown after each of [n] consecutive [ended] events. *)
Fixpoint indexSequence (vs : list Asset) (currentIndex : Z) (n : nat)
  : list Z :=
  match n with
  | O => []
  | S k =>
      let next := handleVideoEnd vs currentIndex in
      next :: indexSequence vs next k
  end.

(** [videos[currentIndex]]: [undefined] out of range. *)
Definition video_at (vs : list Asset) (currentIndex : Z) : option Asset :=
  if currentIndex <? 0 then None else nth_error vs (Z.to_nat currentIndex).

(** [x || ''] for [x : string | null]. *)
Definition or_empty (x : option jsstring) : jsstring :=
  match x with Some s => s | None => [] end.

(** What [CinemaMode] puts on screen. *)
Record CinemaView := {
  progress : Z * Z;                 (* {currentIndex + 1} / {videos.length} *)
  video_src : jsstring;             (* <video src=...> *)
  audio_src : option jsstring;      (* <audio src=...>, when rendered *)
  caption : option jsstring         (* {currentVideo.prompt} *)
}.

Inductive Rendered :=
| RenderNull                        (* return null *)
| RenderView (v : CinemaView)
| RenderThrows.                     (* property read on undefined *)

(** The body of [CinemaMode] after its hooks. *)
Definition CinemaMode (vs : list Asset) (au : option Asset)
  (currentIndex : Z) : Rendered :=
  if (length vs =? 0)%nat then RenderNull
  else
    match video_at vs currentIndex with
    | None => RenderThrows
    | Some currentVideo =>
        RenderView
          {| progress := (currentIndex + 1, Z.of_nat (length vs));
             video_src := or_empty (asset_url currentVideo);
             audio_src :=
               match au with
               | Some a =>
                   match asset_url a with
                   | Some u => if truthy u then Some u else None
                   | None => None
                   end
               | None => None
               end;
             caption := asset_prompt currentVideo |}
    end.

(** [{showCinema && cinemaData && <CinemaMode ... />}] *)
Definition renderCinema (ui : UIState) (currentIndex : Z) : Rendered :=
  if showCinema ui then
    match cinemaData ui with
    | Some d => CinemaMode (videos d) (cinema_audio d) currentIndex
    | None => RenderNull
    end
  else RenderNull.

Inductive MediaEffect := PlayVideo | PlayAudio.

(** The calls of [play()] when [CinemaMode] is mounted, in the order of its
    two effects: the effect on [audio] plays the video and, when there is an
    audio element, the audio; the effect on [currentIndex] then plays the
    video again.  [videoRef.current] and [audioRef.current] are set exactly
    when the element was rendered. *)
Definition mountEffects (r : Rendered) : list MediaEffect :=
  match r with
  | RenderView v =>
      (PlayVideo
       :: match audio_src v with Some _ => [PlayAudio] | None => [] end)
      ++ [PlayVideo]
  | _ => []
  end.

(** [showCinema && cinemaData]: [CinemaMode] is mounted. *)
Definition cinemaMounted (ui : UIState) : bool :=
  showCinema ui
  && match cinemaData ui with Some _ => true | None => false end.


(** Where the sequencer is: [CinemaMode] is not mounted; it is mounted and
    returned null; it shows the video at an index; its render threw. *)
Inductive SequencerState :=
| Idle
| Blank
| Playing (index : Z)
| Failed.

Definition sequencerState (ui : UIState) (currentIndex : Z) : SequencerState :=
  if cinemaMounted ui then
    match renderCinema ui currentIndex with
    | RenderNull => Blank
    | RenderView _ => Playing currentIndex
    | RenderThrows => Failed
    end
  else Idle.


(* ================================================================== *)
(** * Sending: [handleSend] *)
(* ================================================================== *)

(** The synchronous part of [handleSend], up to [await sendUserMessage]:
    the guard, the two captured constants, the two resets and the call. *)
Definition handleSend (ui : UIState) : list Action :=
  if negb (truthy (trim (inputValue ui)))
     && (length (attachments ui) =? 0)%nat
  then []
  else
    let text := inputValue ui in
    let atts := attachments ui in
    [SetInputValue []; SetAttachments []; SendUserMessage text atts].

(** The rest of [handleSend], once the awaited promise has settled: the
    refresh is scheduled when it fulfilled; a rejection leaves the handler
    through the [await] and nothing more runs. *)
Definition handleSend_resume (s : Settled) : list Action :=
  match s with
  | Fulfilled => [SetTimeoutLoadAssets 2000]
  | Rejected => []
  end.

(** [disabled={isProcessing || (!inputValue.trim() && attachments.length === 0)}]
    on the send button. *)
Definition sendDisabled (isProcessing : bool) (ui : UIState) : bool :=
  isProcessing
  || negb (truthy (trim (inputValue ui)))
     && (length (attachments ui) =? 0)%nat.

(** [removeAttachment] *)
Definition removeAttachment (index : nat) : list Action :=
  [FilterAttachment index].

(* ================================================================== *)
(** * Attachments: [handleFileSelect] *)
(* ================================================================== *)

(** A selected file: its [type] and what reading it as a data URL gives,
    [None] when its bytes cannot be read. *)
Record File := {
  file_type : jsstring;
  file_contents : option jsstring
}.

(** The event a [FileReader] ends with. *)
Inductive ReaderEvent :=
| load (result : jsstring)
| error.

(** [reader.readAsDataURL(file)], as the event it ends with. *)
Definition readAsDataURL (f : File) : ReaderEvent :=
  match file_contents f with
  | Some result => load result
  | None => error
  end.

(** The [reader.onload] closure made for [file]. *)
Definition onload (file : File) (result : jsstring) : list Action :=
  let base64 := nth_error (split_comma result) 1 in
  let type := if startsWith (file_type file) (js "image/")
              then image else audio in
  [AppendAttachment
     {| data := base64; mimeType := file_type file; att_type := type |}].

(** One [FileReader] with the file its handler closed over. *)
Record Reader := { reader_file : File }.

(** [handleFileSelect]: no files, no readers; otherwise one reader per
    file, started in selection order. *)
Definition handleFileSelect (files : option (list File)) : list Reader :=
  match files with
  | None => []
  | Some fs => map (fun f => {| reader_file := f |}) fs
  end.

(** What runs when a reader ends: [onload] on [load]; no handler is
    registered for [error]. *)
Definition reader_completes (r : Reader) : list Action :=
  match readAsDataURL (reader_file r) with
  | load result => onload (reader_file r) result
  | error => []
  end.

(** The component with its readers still reading. *)
Record Picker := {
  picker_ui : UIState;
  reading : list Reader
}.

Definition select (files : option (list File)) (p : Picker) : Picker :=
  {| picker_ui := picker_ui p;
     reading := reading p ++ handleFileSelect files |}.

(** The [k]-th reader still reading ends. *)
Definition complete (p : Picker) (k : nat) : Picker :=
  match nth_error (reading p) k with
  | Some r =>
      {| picker_ui := apply_actions (picker_ui p) (reader_completes r);
         reading := remove_at k (reading p) |}
  | None => p
  end.

(** The readers end in the order of [schedule]. *)
Definition complete_all (p : Picker) (schedule : list nat) : Picker :=
  fold_left complete schedule p.

(** The readers in the order [schedule] makes them end. *)
Fixpoint completion_order (rs : list Reader) (schedule : list nat)
  : list Reader :=
  match schedule with
  | [] => []
  | k :: rest =>
      match nth_error rs k with
      | Some r => r :: completion_order (remove_at k rs) rest
      | None => completion_order rs rest
      end
  end.

(** The entries a reader adds: one when its file is readable. *)
Definition encoded (r : Reader) : list Attachment :=
  match file_contents (reader_file r) with
  | Some result =>
      [{| data := nth_error (split_comma result) 1;
          mimeType := file_type (reader_file r);
          att_type := if startsWith (file_type (reader_file r)) (js "image/")
                      then image else audio |}]
  | None => []
  end.

(* ================================================================== *)
(** * The rest of the component *)
(* ================================================================== *)

(** [a === b] on strings. *)
Fixpoint jsstring_eqb (a b : jsstring) : bool :=
  match a, b with
  | [], [] => true
  | x :: a', y :: b' => (x =? y)%N && jsstring_eqb a' b'
  | _, _ => false
  end.

(** [handleKeyDown]: whether [e.preventDefault()] was called, and the
    actions of the [handleSend] it starts. *)
Definition handleKeyDown (key : jsstring) (shiftKey : bool) (ui : UIState)
  : bool * list Action :=
  if jsstring_eqb key (js "Enter") && negb shiftKey
  then (true, handleSend ui)
  else (false, []).

(** [`${x}`] in a template literal, for [x : string | undefined]. *)
Definition template (x : option jsstring) : jsstring :=
  match x with
  | Some s => s
  | None => js "undefined"
  end.

(** What stands for a pending attachment above the input: the image itself,
    from a data URL rebuilt out of the record, or the music icon. *)
Inductive Preview :=
| PreviewImage (src : jsstring)
| PreviewMusic.

(** [att.type === 'image' ? <img src={`data:${att.mimeType};base64,${att.data}`} />
    : <Music />] *)
Definition attachmentPreview (att : Attachment) : Preview :=
  match att_type att with
  | image =>
      PreviewImage
        (js "data:" ++ mimeType att ++ js ";base64," ++ template (data att))
  | audio => PreviewMusic
  end.

(** The code unit is not a comma. *)
Definition not_comma (c : N) : bool := negb (c =? 44)%N.

(** [onClose={() => setShowCinema(false)}] *)
Definition onClose : list Action := [SetShowCinema false].

(** What an [ended] event makes play.  Setting [currentIndex] to the value
    it has causes no render, and the effect that depends on [currentIndex]
    only runs again when it changed; then the video now on screen is
    played.  The audio is started by the mount effect alone. *)
Definition endedEffects (vs : list Asset) (au : option Asset)
  (currentIndex : Z) : list MediaEffect :=
  let next := handleVideoEnd vs currentIndex in
  if next =? currentIndex then []
  else
    match CinemaMode vs au next with
    | RenderView _ => [PlayVideo]
    | _ => []
    end.

(** [a.type === 'video'] *)
Definition is_video (a : Asset) : bool :=
  match asset_type a with
  | video_asset => true
  | _ => false
  end.

(** [disabled={assets.filter(a => a.type === 'video').length === 0}] on the
    Cinema Mode button. *)
Definition cinemaDisabled (ui : UIState) : bool :=
  (length (filter is_video (assets ui)) =? 0)%nat.

(** The argument of [navigator.share]. *)
Record ShareData := {
  share_title : jsstring;
  share_text : jsstring;
  share_url : jsstring
}.

(** [x || d] for [x : string | null]: [d] when [x] is null or empty. *)
Definition or_default (x : option jsstring) (d : jsstring) : jsstring :=
  match x with
  | Some s => if truthy s then s else d
  | None => d
  end.

(** [handleAssetShare]: what is passed to [navigator.share], if it is
    called; [canShare] is the truthiness of [navigator.share].  Whether the
    share then succeeds or is cancelled changes nothing in the component. *)
Definition handleAssetShare (canShare : bool) (asset : Asset)
  : option ShareData :=
  match asset_url asset with
  | Some u =>
      if canShare && truthy u
      then Some {| share_title := js "Check out what I created with Lucy!";
                   share_text :=
                     or_default (asset_prompt asset) (js "Created with Lucy");
                   share_url := u |}
      else None
  | None => None
  end.

(** [displayMessages]: the intro alone when the timeline is empty.  The
    intro message is built from [LUCY_INTRO_MESSAGE] of [../constants],
    which is not among the sources, and is taken as [intro]. *)
Definition displayMessages {A} (intro : A) (messages : list A) : list A :=
  if (length messages =? 0)%nat then [intro] else messages.

(** The quick prompts above the input:
    [messages.length === 0 && LUCY_PLACEHOLDER_PROMPTS.slice(0, 3)];
    the constant is not among the sources and is taken as [prompts]. *)
Definition quickPrompts {A B} (prompts : list A) (messages : list B)
  : list A :=
  if (length messages =? 0)%nat then firstn 3 prompts else [].

(** A click on a quick prompt: [setInputValue(prompt)]. *)
Definition promptClicked (prompt : jsstring) : list Action :=
  [SetInputValue prompt].

(* ================================================================== *)
(** * The chat hook and the event loop *)
(* ================================================================== *)

(** [useLucyChat] gives the component its [messages], [isProcessing],
    [sendUserMessage] and [startNewChat]; its file is not among the sources,
    so the hook is written down from the specification (sections 4.2, 4.3
    and 5) and marked as such, as the specification describes the reference:
    without the comparison of session ids that it asks implementers to add.
    The event loop around it runs the handlers of the component as they are
    in the source. *)

Section Dispatcher.

(** The payload of a tool call is opaque to the client. *)
Variable ToolCall : Type.

(** The user-facing text shown in place of a failed reply. *)
Variable failureText : jsstring.

(** Modelled from the spec: the role of a Message of the missing hook. *)
Inductive Role := user | model.

(** Modelled from the spec: [useLucyChat] (hooks/use-lucy-chat) is not among
    the sources; a message of the timeline is the Message of the data model,
    with ids taken from a counter. *)
Record Message := {
  msg_id : nat;
  role : Role;
  text : jsstring;
  msg_attachments : list Attachment;
  toolCalls : list ToolCall;
  isLoading : bool;
  isError : bool
}.

(** Modelled from the spec: the SessionStore held by [useLucyChat], which is
    not among the sources: the identity of the current session, its
    timeline, the next free message id and the generic error surfaced on an
    invariant violation. *)
Record SessionStore := {
  sessionId : nat;
  messages : list Message;
  nextMessageId : nat;
  storeError : option jsstring
}.

(** Modelled from the spec: [appendMessage] of the missing SessionStore:
    inserts at the end and returns the assigned id. *)
Definition appendMessage (r : Role) (t : jsstring) (atts : list Attachment)
  (loading : bool) (s : SessionStore) : SessionStore * nat :=
  let m := {| msg_id := nextMessageId s; role := r; text := t;
              msg_attachments := atts; toolCalls := [];
              isLoading := loading; isError := false |} in
  ({| sessionId := sessionId s;
      messages := messages s ++ [m];
      nextMessageId := S (nextMessageId s);
      storeError := storeError s |},
   nextMessageId s).

(** Modelled from the spec: the patch [updatePlaceholder] of the missing
    SessionStore takes, the final content of a placeholder. *)
Record Patch := {
  patch_text : jsstring;
  patch_toolCalls : list ToolCall;
  patch_attachments : list Attachment;
  patch_isError : bool
}.

(** Modelled from the spec: what [updatePlaceholder] of the missing
    SessionStore does to the message: sets text, tool calls, attachments and
    the error flag, clears [isLoading]. *)
Definition patched (m : Message) (p : Patch) : Message :=
  {| msg_id := msg_id m; role := role m; text := patch_text p;
     msg_attachments := patch_attachments p;
     toolCalls := patch_toolCalls p;
     isLoading := false; isError := patch_isError p |}.

(** Modelled from the spec: the search of [updatePlaceholder] of the missing
    SessionStore: the timeline with the loading message [pid] patched,
    [None] when there is no such message. *)
Fixpoint patch_timeline (pid : nat) (p : Patch) (ms : list Message)
  : option (list Message) :=
  match ms with
  | [] => None
  | m :: rest =>
      if (msg_id m =? pid)%nat && isLoading m
      then Some (patched m p :: rest)
      else option_map (cons m) (patch_timeline pid p rest)
  end.

(** Modelled from the spec: [updatePlaceholder] of the missing SessionStore:
    the loading message [pid] takes its final state; [None] is the
    NotFoundError. *)
Definition updatePlaceholder (pid : nat) (p : Patch) (s : SessionStore)
  : option SessionStore :=
  match patch_timeline pid p (messages s) with
  | Some ms =>
      Some {| sessionId := sessionId s; messages := ms;
              nextMessageId := nextMessageId s;
              storeError := storeError s |}
  | None => None
  end.

(** Modelled from the spec: [reset] of the missing SessionStore
    ([startNewChat]): clears the timeline and assigns a new session
    identity. *)
Definition reset (s : SessionStore) : SessionStore :=
  {| sessionId := S (sessionId s); messages := [];
     nextMessageId := nextMessageId s; storeError := storeError s |}.

(** Modelled from the spec: the missing SessionStore before any send. *)
Definition initialStore : SessionStore :=
  {| sessionId := 0; messages := []; nextMessageId := 0;
     storeError := None |}.

(** Modelled from the spec: what the backend answers to one call of the
    missing hook: text, tool calls and attachments, or a failure. *)
Inductive BackendReply :=
| ReplyOk (t : jsstring) (calls : list ToolCall) (atts : list Attachment)
| ReplyFail.

(** Modelled from the spec: steps 4 and 5 of the dispatcher in the missing
    hook: the reply as it is on success, the error text with [isError] on
    failure. *)
Definition patch_of (r : BackendReply) : Patch :=
  match r with
  | ReplyOk t calls atts =>
      {| patch_text := t; patch_toolCalls := calls;
         patch_attachments := atts; patch_isError := false |}
  | ReplyFail =>
      {| patch_text := failureText; patch_toolCalls := [];
         patch_attachments := []; patch_isError := true |}
  end.

(** The reply is a success. *)
Definition reply_ok (r : BackendReply) : bool :=
  match r with ReplyOk _ _ _ => true | ReplyFail => false end.

(** Modelled from the spec: a backend call of the missing hook on its way:
    the call of [sendUserMessage] it belongs to, the session id captured
    when it was sent and its placeholder. *)
Record Flight := {
  flight_call : nat;
  flight_session : nat;
  flight_placeholder : nat
}.

(** What happened, in order; [c] numbers the calls of [sendUserMessage]. *)
Inductive Obs :=
| ObsUser (c : nat)                 (* user message appended *)
| ObsPlaceholder (c : nat)          (* placeholder appended *)
| ObsBackendCall (c : nat)          (* backend call issued *)
| ObsResolved (c : nat) (ok : bool) (* placeholder resolved *)
| ObsNotFound (c : nat)             (* placeholder missing at resolution *)
| ObsScheduled (c : nat)            (* refresh scheduled *)
| ObsRefresh (c : nat).             (* loadAssets started by the timer *)

(** The component, the hook and what is pending in the event loop. *)
Record World := {
  ui : UIState;
  store : SessionStore;
  inflight : list Flight;
  timers : list nat;                (* pending setTimeout(loadAssets), by call *)
  fetching : nat;                   (* getAssets calls not yet answered *)
  sends : nat;                      (* calls of sendUserMessage so far *)
  log : list Obs
}.

(** The component just mounted, with an empty new chat: its first effect
    has called [loadAssets()], so one [getAssets(50)] waits for its answer
    ([loadChatHistory()] fills the list of chats, which no handler of the
    component reads). *)
Definition initialWorld : World :=
  {| ui := initialUI; store := initialStore; inflight := []; timers := [];
     fetching := 1; sends := 0; log := [] |}.

(** The next render of the component, the rest untouched. *)
Definition with_ui (w : World) (u : UIState) : World :=
  {| ui := u; store := store w; inflight := inflight w; timers := timers w;
     fetching := fetching w; sends := sends w; log := log w |}.

(** Modelled from the spec: the [isProcessing] flag of the missing hook: a
    send of the current session is in flight. *)
Definition isProcessing (w : World) : bool :=
  existsb (fun f => (flight_session f =? sessionId (store w))%nat)
          (inflight w).

(** Modelled from the spec: [sendUserMessage] of the missing hook, up to the
    backend call (steps 2 and 3 of the dispatcher): the user message, then
    the loading placeholder, then the call with the session id. *)
Definition sendUserMessage (t : jsstring) (atts : list Attachment)
  (w : World) : World :=
  let c := sends w in
  let (s1, _) := appendMessage user t atts false (store w) in
  let (s2, p) := appendMessage model [] [] true s1 in
  {| ui := ui w; store := s2;
     inflight := inflight w ++
       [{| flight_call := c; flight_session := sessionId s2;
           flight_placeholder := p |}];
     timers := timers w; fetching := fetching w; sends := S c;
     log := log w ++ [ObsUser c; ObsPlaceholder c; ObsBackendCall c] |}.

(** Modelled from the spec: the arrival of a reply in the missing hook
    (steps 4 and 5 of the dispatcher): the placeholder is resolved with the
    reply or with the error text; a missing placeholder is the
    NotFoundError, surfaced as the generic error.  The session id captured
    at send time is not compared with the current one: the specification
    says of the reference that it does not enforce this guard (sections 5
    and 9), and the component passes no session id to the hook. *)
Definition deliver (f : Flight) (r : BackendReply) (s : SessionStore)
  : SessionStore * Obs :=
  match updatePlaceholder (flight_placeholder f) (patch_of r) s with
  | Some s' => (s', ObsResolved (flight_call f) (reply_ok r))
  | None =>
      ({| sessionId := sessionId s; messages := messages s;
          nextMessageId := nextMessageId s;
          storeError := Some failureText |},
       ObsNotFound (flight_call f))
  end.

(** One action of a handler run that belongs to call [c]. *)
Definition exec (c : nat) (w : World) (a : Action) : World :=
  match a with
  | SendUserMessage t atts => sendUserMessage t atts w
  | SetTimeoutLoadAssets _ =>
      {| ui := ui w; store := store w; inflight := inflight w;
         timers := timers w ++ [c]; fetching := fetching w;
         sends := sends w; log := log w ++ [ObsScheduled c] |}
  | GetAssets _ =>
      {| ui := ui w; store := store w; inflight := inflight w;
         timers := timers w; fetching := S (fetching w);
         sends := sends w; log := log w |}
  | _ => with_ui w (apply_action (ui w) a)
  end.

(** The actions of a handler run, in program order. *)
Definition exec_all (c : nat) (w : World) (acts : list Action) : World :=
  fold_left (exec c) acts w.

(** The flight of call [c], taken out of the flights. *)
Fixpoint take_flight (c : nat) (fs : list Flight)
  : option (Flight * list Flight) :=
  match fs with
  | [] => None
  | f :: rest =>
      if (flight_call f =? c)%nat then Some (f, rest)
      else match take_flight c rest with
           | Some (g, rest') => Some (g, f :: rest')
           | None => None
           end
  end.

(** The timer set after call [c], taken out of the timers. *)
Fixpoint take_timer (c : nat) (ts : list nat) : option (list nat) :=
  match ts with
  | [] => None
  | t :: rest =>
      if (t =? c)%nat then Some rest
      else option_map (cons t) (take_timer c rest)
  end.

(** What the user, the backend and the clock can make happen. *)
Inductive Event :=
| EvChange (v : jsstring)           (* onChange of the text input *)
| EvAttached (a : Attachment)       (* a reader's onload *)
| EvRemoveAttachment (index : nat)
| EvSend                            (* click on send, or Enter *)
| EvReply (c : nat) (r : BackendReply)  (* the reply to call [c] arrives *)
| EvTimer (c : nat)                 (* the timer set after call [c] fires *)
| EvAssets (result : AssetsResult)  (* getAssets answers *)
| EvNewChat.                        (* click on New Project *)

(** One turn of the event loop.  The send control is disabled while
    [isProcessing]; a reply first settles in the hook, then [handleSend]
    resumes. *)
Definition step (w : World) (e : Event) : World :=
  match e with
  | EvChange v => with_ui w (apply_action (ui w) (SetInputValue v))
  | EvAttached a => with_ui w (apply_action (ui w) (AppendAttachment a))
  | EvRemoveAttachment i => exec_all (sends w) w (removeAttachment i)
  | EvSend =>
      if isProcessing w then w
      else exec_all (sends w) w (handleSend (ui w))
  | EvReply c r =>
      match take_flight c (inflight w) with
      | None => w
      | Some (f, rest) =>
          let (s', o) := deliver f r (store w) in
          exec_all c
            {| ui := ui w; store := s'; inflight := rest;
               timers := timers w; fetching := fetching w;
               sends := sends w; log := log w ++ [o] |}
            (handleSend_resume Fulfilled)
      end
  | EvTimer c =>
      match take_timer c (timers w) with
      | None => w
      | Some rest =>
          exec_all c
            {| ui := ui w; store := store w; inflight := inflight w;
               timers := rest; fetching := fetching w;
               sends := sends w; log := log w ++ [ObsRefresh c] |}
            loadAssets
      end
  | EvAssets result =>
      match fetching w with
      | O => w
      | S n =>
          exec_all (sends w)
            {| ui := ui w; store := store w; inflight := inflight w;
               timers := timers w; fetching := n;
               sends := sends w; log := log w |}
            (loadAssets_resume result)
      end
  | EvNewChat =>
      {| ui := ui w; store := reset (store w); inflight := inflight w;
         timers := timers w; fetching := fetching w;
         sends := sends w; log := log w |}
  end.

(** The events of [es], one after the other. *)
Definition run (w : World) (es : list Event) : World := fold_left step es w.

(** One submission: what is typed and attached, and what the backend will
    answer. *)
Record Submission := {
  sub_text : jsstring;
  sub_attachments : list Attachment;
  sub_reply : BackendReply
}.

(** A send started and answered before anything else happens. *)
Definition submit (w : World) (s : Submission) : World :=
  run w (EvChange (sub_text s)
         :: map EvAttached (sub_attachments s)
         ++ [EvSend; EvReply (sends w) (sub_reply s)]).

(** Each submission is sent and answered before the next is typed. *)
Definition one_at_a_time (w : World) (ss : list Submission) : World :=
  fold_left submit ss w.

(** The guard of [handleSend] lets the submission through. *)
Definition accepted (s : Submission) : bool :=
  negb (negb (truthy (trim (sub_text s)))
        && (length (sub_attachments s) =? 0)%nat).

(** The user message and the resolved reply of a submission, with ids from
    [n]. *)
Definition settled_pair (n : nat) (s : Submission) : list Message :=
  [ {| msg_id := n; role := user; text := sub_text s;
       msg_attachments := sub_attachments s; toolCalls := [];
       isLoading := false; isError := false |};
    patched {| msg_id := S n; role := model; text := [];
               msg_attachments := []; toolCalls := [];
               isLoading := true; isError := false |}
            (patch_of (sub_reply s)) ].

(** The timeline the submissions should leave, in send order. *)
Fixpoint expected_timeline (n : nat) (ss : list Submission) : list Message :=
  match ss with
  | [] => []
  | s :: rest =>
      if accepted s
      then settled_pair n s ++ expected_timeline (S (S n)) rest
      else expected_timeline n rest
  end.

(** Every occurrence of [b] in the log has an [a] before it. *)
Definition precedes (a b : Obs) (l : list Obs) : Prop :=
  forall l1 l2, l = l1 ++ b :: l2 -> In a l1.

(** The event is a click on New Project. *)
Definition is_new_chat (e : Event) : bool :=
  match e with EvNewChat => true | _ => false end.

(** The events that reach neither the hook nor the timers. *)
Definition quiet (e : Event) : bool :=
  match e with
  | EvChange _ | EvAttached _ | EvRemoveAttachment _ | EvAssets _ => true
  | _ => false
  end.

(** A video of the gallery, for the examples. *)
Definition clip (name : string) : Asset :=
  {| asset_id := js name; asset_type := video_asset;
     asset_url := Some (js name); asset_prompt := None;
     asset_cost := 1; asset_model := js "video"; asset_createdAt := 0 |}.

(** The user types a request and sends it. *)
Definition draw_a_cat : list Event := [EvChange (js "draw a cat"); EvSend].

(** The answer of the backend in the scenario of the specification. *)
Definition cat_reply : BackendReply :=
  ReplyOk (js "Here's your cat!") []
    [{| data := Some (js "iVBORw0KGgo="); mimeType := js "image/png";
        att_type := image |}].

(** Call [c] of [sendUserMessage] is still waiting for its reply. *)
Definition in_flight (c : nat) (w : World) : bool :=
  existsb (fun f => (flight_call f =? c)%nat) (inflight w).

(** Every occurrence of [b] in the log has an entry satisfying [P] before
    it. *)
Definition before (P : Obs -> Prop) (b : Obs) (l : list Obs) : Prop :=
  forall l1 l2, l = l1 ++ b :: l2 -> exists a, P a /\ In a l1.

(** The placeholder of call [c] was resolved, with the reply or the error. *)
Definition resolved (c : nat) (o : Obs) : Prop :=
  exists ok, o = ObsResolved c ok.

(** The order kept by the log. *)
Definition log_ordered (l : list Obs) : Prop :=
  forall c,
    before (eq (ObsUser c)) (ObsPlaceholder c) l
    /\ before (resolved c) (ObsRefresh c) l.

(** The hook is done with the reply to call [c]: the placeholder was
    resolved, or was missing. *)
Definition reply_settled (c : nat) (o : Obs) : Prop :=
  (exists ok, o = ObsResolved c ok) \/ o = ObsNotFound c.

(** Timers are set, and refreshes start, after the reply was settled. *)
Definition refresh_follows_reply (w : World) : Prop :=
  (forall c, In c (timers w) -> exists a, reply_settled c a /\ In a (log w))
  /\ forall c, before (reply_settled c) (ObsRefresh c) (log w).

(** Every flight was numbered by a past call and captured a session id
    that was current then. *)
Definition flights_known (w : World) : Prop :=
  forall f, In f (inflight w) ->
    (flight_call f < sends w)%nat
    /\ (flight_session f <= sessionId (store w))%nat.

(** Timers carry the number of a past call and the ids of the timeline
    are below the next free one. *)
Definition ids_known (w : World) : Prop :=
  (forall t, In t (timers w) -> (t < sends w)%nat)
  /\ Forall (fun m => (msg_id m < nextMessageId (store w))%nat)
            (messages (store w)).

(** The user message that a send appends in state [w]. *)
Definition user_message (w : World) : Message :=
  {| msg_id := nextMessageId (store w); role := user;
     text := inputValue (ui w); msg_attachments := attachments (ui w);
     toolCalls := []; isLoading := false; isError := false |}.

(** The loading placeholder that follows it. *)
Definition placeholder (w : World) : Message :=
  {| msg_id := S (nextMessageId (store w)); role := model; text := [];
     msg_attachments := []; toolCalls := [];
     isLoading := true; isError := false |}.


(** Calls, placeholders and message ids are not used twice, and a refresh
    that has started belongs to a past call. *)
Definition tidy (w : World) : Prop :=
  NoDup (map flight_call (inflight w))
  /\ (forall f, In f (inflight w) ->
        (flight_placeholder f < nextMessageId (store w))%nat)
  /\ (forall c, In (ObsRefresh c) (log w) -> (c < sends w)%nat)
  /\ NoDup (map msg_id (messages (store w))).

(** While call [c] waits for its reply in the session it was made in: its
    flight carries the current session and the id of the placeholder [ph],
    no other flight does, [ph] is in the timeline, and no refresh for [c]
    is pending or has started. *)
Definition awaiting (c : nat) (ph : Message) (w : World) : Prop :=
  in_flight c w = true ->
  (forall f, In f (inflight w) -> flight_call f = c ->
     flight_session f = sessionId (store w)
     /\ flight_placeholder f = msg_id ph)
  /\ (forall g, In g (inflight w) -> flight_call g <> c ->
        flight_placeholder g <> msg_id ph)
  /\ In ph (messages (store w))
  /\ ~ In c (timers w)
  /\ ~ In (ObsRefresh c) (log w).

(** What holds as long as no new chat is started: at most one flight, of
    the current session, whose placeholder is loading in the timeline;
    every pending timer was set after its placeholder was resolved. *)
Definition single_flight (w : World) : Prop :=
  (length (inflight w) <= 1)%nat
  /\ (forall f, In f (inflight w) ->
        flight_session f = sessionId (store w)
        /\ exists m, In m (messages (store w))
                     /\ msg_id m = flight_placeholder f
                     /\ isLoading m = true)
  /\ (forall c, In c (timers w) -> exists a, resolved c a /\ In a (log w))
  /\ log_ordered (log w).

(** Between two submissions: nothing in flight, nothing attached, nothing
    loading. *)
Definition at_rest (w : World) : Prop :=
  inflight w = []
  /\ attachments (ui w) = []
  /\ Forall (fun m => isLoading m = false) (messages (store w)).

(** Three files for the examples: an image, a sound and a file that cannot
    be read. *)
Definition picture : File :=
  {| file_type := js "image/png";
     file_contents := Some (js "data:image/png;base64,iVBORw0KGgo=") |}.

Definition song : File :=
  {| file_type := js "audio/mpeg";
     file_contents := Some (js "data:audio/mpeg;base64,SUQzBAA=") |}.

Definition unreadable : File :=
  {| file_type := js "image/png"; file_contents := None |}.

(* ================================================================== *)
(** * Properties of the strings *)
(* ================================================================== *)

Lemma trimStart_nil_iff (s : jsstring) :
  trimStart s = [] <-> forallb isWhiteSpace s = true.
Proof.
  induction s as [|c rest IH]; simpl.
  - tauto.
  - destruct (isWhiteSpace c); simpl; [exact IH|].
    split; discriminate.
Qed.

Lemma trimStart_head (s : jsstring) (c : N) (rest : jsstring) :
  trimStart s = c :: rest -> isWhiteSpace c = false.
Proof.
  induction s as [|d s' IH]; simpl; [discriminate|].
  destruct (isWhiteSpace d) eqn:E; [exact IH|].
  intros H. injection H as -> _. exact E.
Qed.

Lemma forallb_rev {A} (f : A -> bool) (l : list A) :
  forallb f (rev l) = forallb f l.
Proof.
  induction l as [|x l IH]; simpl; [reflexivity|].
  rewrite forallb_app, IH. simpl. rewrite andb_true_r. apply andb_comm.
Qed.

(** [!s.trim()] holds exactly for the strings made of white space only. *)
Lemma trim_nil_iff (s : jsstring) :
  trim s = [] <-> forallb isWhiteSpace s = true.
Proof.
  unfold trim, trimEnd. split.
  - intros H.
    assert (H1 : trimStart (rev (trimStart s)) = []).
    { destruct (trimStart (rev (trimStart s))) as [|c0 l0]; [reflexivity|].
      simpl in H. destruct (rev l0); discriminate. }
    apply trimStart_nil_iff in H1. rewrite forallb_rev in H1.
    destruct (trimStart s) as [|c rest] eqn:E.
    + apply trimStart_nil_iff. exact E.
    + apply trimStart_head in E. simpl in H1. rewrite E in H1. discriminate.
  - intros H. apply trimStart_nil_iff in H. rewrite H. reflexivity.
Qed.

Lemma blank_guard (s : jsstring) :
  forallb isWhiteSpace s = true -> negb (truthy (trim s)) = true.
Proof.
  intros H. apply trim_nil_iff in H. rewrite H. reflexivity.
Qed.

(* ================================================================== *)
(** * Cinema mode *)
(* ================================================================== *)

Lemma handleVideoEnd_step (vs : list Asset) (i : Z) :
  0 <= i < Z.of_nat (length vs) - 1 -> handleVideoEnd vs i = i + 1.
Proof.
  intros H. unfold handleVideoEnd.
  destruct (Z.ltb_spec i (Z.of_nat (length vs) - 1)); lia.
Qed.

Lemma handleVideoEnd_wrap (vs : list Asset) (i : Z) :
  Z.of_nat (length vs) - 1 <= i -> handleVideoEnd vs i = 0.
Proof.
  intros H. unfold handleVideoEnd.
  destruct (Z.ltb_spec i (Z.of_nat (length vs) - 1)); lia.
Qed.

(** The index stays inside the playlist. *)
Lemma handleVideoEnd_in_range (vs : list Asset) (i : Z) :
  vs <> [] -> 0 <= i < Z.of_nat (length vs) ->
  0 <= handleVideoEnd vs i < Z.of_nat (length vs).
Proof.
  intros Hne H. destruct vs as [|v vs']; [congruence|].
  unfold handleVideoEnd.
  destruct (Z.ltb_spec i (Z.of_nat (length (v :: vs')) - 1)); lia.
Qed.

Lemma iter_handleVideoEnd_below (vs : list Asset) (k : nat) :
  (k < length vs)%nat ->
  Nat.iter k (handleVideoEnd vs) 0 = Z.of_nat k.
Proof.
  induction k as [|k IH]; intros H; [reflexivity|].
  simpl. rewrite IH by lia. rewrite handleVideoEnd_step; lia.
Qed.

(** C3: on a non-empty playlist an [ended] event moves a current index of
    the playlist to the next one modulo the playlist length; from index 0,
    as many events as there are videos lead back to 0; for three videos the
    indices after three events are 1, 2, 0. *)
Theorem video_end_advances_modulo_length :
  forall (vs : list Asset) (i : Z),
    vs <> [] ->
    0 <= i < Z.of_nat (length vs) ->
    handleVideoEnd vs i = (i + 1) mod Z.of_nat (length vs)
    /\ Nat.iter (length vs) (handleVideoEnd vs) 0 = 0
    /\ forall A B C : Asset, indexSequence [A; B; C] 0 3 = [1; 2; 0].
Proof.
  intros vs i Hne Hi. split; [|split].
  - destruct (Z_lt_le_dec i (Z.of_nat (length vs) - 1)) as [Hlt|Hge].
    + rewrite handleVideoEnd_step by lia.
      symmetry. apply Z.mod_small. lia.
    + rewrite handleVideoEnd_wrap by lia.
      replace (i + 1) with (Z.of_nat (length vs)) by lia.
      symmetry. apply Z.mod_same. lia.
  - destruct vs as [|v vs']; [congruence|].
    change (length (v :: vs')) with (S (length vs')) at 1.
    simpl Nat.iter. rewrite iter_handleVideoEnd_below by (simpl; lia).
    apply handleVideoEnd_wrap. simpl length. lia.
  - intros A B C. reflexivity.
Qed.



(* ================================================================== *)
(** * Asset gallery *)
(* ================================================================== *)

(** C6: a successful answer of [getAssets] replaces the cached list by the
    fetched one, whatever was cached; an answer with [success = false]
    leaves the state, and so the cached list, as it was. *)
Theorem refresh_replaces_or_retains :
  forall (u : UIState) (fetched : list Asset) (other : option (list Asset)),
    assets (apply_actions u
              (loadAssets_resume
                 {| assets_success := true; assets_list := Some fetched |}))
    = fetched
    /\ apply_actions u
         (loadAssets_resume
            {| assets_success := false; assets_list := other |})
       = u.
Proof.
  intros u fetched other. split; reflexivity.
Qed.

(* ================================================================== *)
(** * Attachments *)
(* ================================================================== *)

(** What a reader does when it ends is to append its records. *)
Lemma reader_completes_encoded (r : Reader) :
  reader_completes r = map AppendAttachment (encoded r).
Proof.
  unfold reader_completes, readAsDataURL, encoded, onload.
  destruct (file_contents (reader_file r)); reflexivity.
Qed.

Lemma reader_completes_attachments (u : UIState) (r : Reader) :
  attachments (apply_actions u (reader_completes r))
  = attachments u ++ encoded r.
Proof.
  unfold reader_completes, readAsDataURL, encoded.
  destruct (file_contents (reader_file r)); simpl.
  - reflexivity.
  - symmetry. apply app_nil_r.
Qed.

Lemma complete_all_attachments (schedule : list nat) :
  forall p : Picker,
    attachments (picker_ui (complete_all p schedule))
    = attachments (picker_ui p)
      ++ flat_map encoded (completion_order (reading p) schedule).
Proof.
  unfold complete_all.
  induction schedule as [|k rest IH]; intros p; simpl.
  - symmetry. apply app_nil_r.
  - rewrite IH. unfold complete.
    destruct (nth_error (reading p) k) as [r|]; simpl.
    + rewrite reader_completes_attachments, <- app_assoc. reflexivity.
    + reflexivity.
Qed.

Lemma completion_order_incl (schedule : list nat) :
  forall (rs : list Reader) (r : Reader),
    In r (completion_order rs schedule) -> In r rs.
Proof.
  assert (Hrm : forall (k : nat) (rs : list Reader) (r : Reader),
             In r (remove_at k rs) -> In r rs).
  { intros k rs. revert k.
    induction rs as [|x rs IH]; intros k r; simpl; [tauto|].
    destruct k; simpl; [tauto|]. intros [H|H]; [tauto|]. right. eauto. }
  induction schedule as [|k rest IH]; intros rs r; simpl; [tauto|].
  destruct (nth_error rs k) as [x|] eqn:E.
  - intros [H|H].
    + subst. eapply nth_error_In. exact E.
    + eapply Hrm. eapply IH. exact H.
  - apply IH.
Qed.

(** Whatever the order in which the readers end, an entry of the list is
    an old one or the record of a file that could be read. *)
Lemma attachments_come_from_readable_files
  (u : UIState) (files : list File) (schedule : list nat) (a : Attachment) :
  In a (attachments
          (picker_ui
             (complete_all
                (select (Some files) {| picker_ui := u; reading := [] |})
                schedule))) ->
  In a (attachments u)
  \/ exists f result,
       In f files /\ file_contents f = Some result
       /\ onload f result = [AppendAttachment a].
Proof.
  rewrite complete_all_attachments. simpl. intros H.
  apply in_app_or in H. destruct H as [H|H]; [left; exact H|right].
  apply in_flat_map in H. destruct H as [r [Hr Ha]].
  apply completion_order_incl in Hr. apply in_map_iff in Hr.
  destruct Hr as [f [<- Hf]]. unfold encoded in Ha. simpl in Ha.
  destruct (file_contents f) as [result|] eqn:E; [|contradiction].
  destruct Ha as [<-|[]]. exists f, result. repeat split; assumption.
Qed.

(** C8: a file that cannot be read ends its reader with the [error] event
    (the DecodeError of the specification), for which no handler runs: when
    that reader ends, the state of the component, and so the list of pending
    attachments, is what it was. *)
Theorem unreadable_file_never_attached :
  forall (p : Picker) (k : nat) (f : File),
    nth_error (reading p) k = Some {| reader_file := f |} ->
    file_contents f = None ->
    readAsDataURL f = error
    /\ reader_completes {| reader_file := f |} = []
    /\ picker_ui (complete p k) = picker_ui p
    /\ attachments (picker_ui (complete p k)) = attachments (picker_ui p).
Proof.
  intros p k f Hk Hf.
  assert (He : readAsDataURL f = error).
  { unfold readAsDataURL. rewrite Hf. reflexivity. }
  assert (Hc : reader_completes {| reader_file := f |} = []).
  { unfold reader_completes. simpl. rewrite He. reflexivity. }
  assert (Hu : picker_ui (complete p k) = picker_ui p).
  { unfold complete. rewrite Hk. simpl. rewrite Hc. reflexivity. }
  repeat split; try assumption. rewrite Hu. reflexivity.
Qed.

(** C9: selecting files starts one reader per file; a reader that ends
    appends its own record to the end of the list; so, whatever the order in
    which the readers end, the list grows in completion order; when the
    second of two files ends first, its record comes first, which is not
    the selection order. *)
Theorem attachments_appended_in_completion_order :
  forall (u : UIState) (files : list File) (schedule : list nat),
    let p := select (Some files) {| picker_ui := u; reading := [] |} in
    map reader_file (reading p) = files
    /\ (forall r, reader_completes r = map AppendAttachment (encoded r))
    /\ attachments (picker_ui (complete_all p schedule))
       = attachments u
         ++ flat_map encoded (completion_order (reading p) schedule)
    /\ attachments
         (picker_ui
            (complete_all
               (select (Some [picture; song])
                       {| picker_ui := u; reading := [] |})
               [1%nat; 0%nat]))
       = attachments u
         ++ encoded {| reader_file := song |}
         ++ encoded {| reader_file := picture |}
    /\ encoded {| reader_file := song |} ++ encoded {| reader_file := picture |}
       <> encoded {| reader_file := picture |}
          ++ encoded {| reader_file := song |}.
Proof.
  intros u files schedule p. split; [|split; [|split; [|split]]].
  - subst p. simpl. rewrite map_map. simpl. apply map_id.
  - apply reader_completes_encoded.
  - apply complete_all_attachments.
  - rewrite complete_all_attachments. reflexivity.
  - vm_compute. discriminate.
Qed.

(* ================================================================== *)
(** * Sending *)
(* ================================================================== *)

(** The state after the two resets of [handleSend]. *)
Lemma cleared_ui (u : UIState) :
  apply_action (apply_action u (SetInputValue [])) (SetAttachments [])
  = {| inputValue := []; attachments := []; assets := assets u;
       showCinema := showCinema u; cinemaData := cinemaData u |}.
Proof. reflexivity. Qed.

Lemma handleSend_cases (u : UIState) :
  handleSend u = []
  \/ handleSend u
     = [SetInputValue []; SetAttachments [];
        SendUserMessage (inputValue u) (attachments u)].
Proof.
  unfold handleSend.
  destruct (negb (truthy (trim (inputValue u)))
            && (length (attachments u) =? 0)%nat); [left|right]; reflexivity.
Qed.

(** A click on send changes nothing, or runs [sendUserMessage] in the state
    where input and attachments are already cleared. *)
Lemma step_send_cases (w : World) :
  step w EvSend = w
  \/ (isProcessing w = false
      /\ handleSend (ui w) <> []
      /\ step w EvSend
         = sendUserMessage (inputValue (ui w)) (attachments (ui w))
             (with_ui w
                (apply_action (apply_action (ui w) (SetInputValue []))
                              (SetAttachments [])))).
Proof.
  unfold step. destruct (isProcessing w); [left; reflexivity|].
  destruct (handleSend_cases (ui w)) as [H|H]; rewrite H.
  - left. reflexivity.
  - right. repeat split. discriminate.
Qed.

Lemma step_reply_ui (w : World) (c : nat) (r : BackendReply) :
  ui (step w (EvReply c r)) = ui w.
Proof.
  unfold step. destruct (take_flight c (inflight w)) as [[f rest]|].
  - destruct (deliver f r (store w)). reflexivity.
  - reflexivity.
Qed.

(** C5: when the input is empty or white space only and no attachment is
    pending, [handleSend] does nothing: it performs no action, so no call
    of [sendUserMessage] is issued, and the click leaves the whole state,
    timeline included, as it was; the send button is disabled as well. *)
Theorem send_blank_is_noop :
  forall w : World,
    forallb isWhiteSpace (inputValue (ui w)) = true ->
    attachments (ui w) = [] ->
    handleSend (ui w) = []
    /\ step w EvSend = w
    /\ messages (store (step w EvSend)) = messages (store w)
    /\ sendDisabled (isProcessing w) (ui w) = true.
Proof.
  intros w Hblank Hatt.
  assert (H : handleSend (ui w) = []).
  { unfold handleSend. rewrite (blank_guard _ Hblank), Hatt. reflexivity. }
  assert (Hs : step w EvSend = w).
  { unfold step. rewrite H. destruct (isProcessing w); reflexivity. }
  repeat split; try assumption.
  - rewrite Hs. reflexivity.
  - unfold sendDisabled. rewrite (blank_guard _ Hblank), Hatt.
    apply orb_true_r.
Qed.

(** C10: when the guard of [handleSend] lets the call through, the handler
    resets the input and the attachments and only then calls
    [sendUserMessage], with the values it captured; the hook runs in the
    state where both are already empty; what runs after the call settles,
    fulfilled or rejected, touches neither; so both are empty after the
    click and still empty after the reply, whatever the reply is. *)
Theorem send_clears_input_and_attachments :
  forall (w : World) (s : Settled) (r : BackendReply),
    negb (truthy (trim (inputValue (ui w))))
    && (length (attachments (ui w)) =? 0)%nat = false ->
    isProcessing w = false ->
    handleSend (ui w)
    = [SetInputValue []; SetAttachments [];
       SendUserMessage (inputValue (ui w)) (attachments (ui w))]
    /\ step w EvSend
       = sendUserMessage (inputValue (ui w)) (attachments (ui w))
           (with_ui w
              {| inputValue := []; attachments := [];
                 assets := assets (ui w); showCinema := showCinema (ui w);
                 cinemaData := cinemaData (ui w) |})
    /\ inputValue (ui (step w EvSend)) = []
    /\ attachments (ui (step w EvSend)) = []
    /\ apply_actions (ui (step w EvSend)) (handleSend_resume s)
       = ui (step w EvSend)
    /\ inputValue (ui (step (step w EvSend) (EvReply (sends w) r))) = []
    /\ attachments (ui (step (step w EvSend) (EvReply (sends w) r))) = [].
Proof.
  intros w s r Hguard Hidle.
  assert (H : handleSend (ui w)
              = [SetInputValue []; SetAttachments [];
                 SendUserMessage (inputValue (ui w)) (attachments (ui w))]).
  { unfold handleSend. rewrite Hguard. reflexivity. }
  assert (Hs : step w EvSend
               = sendUserMessage (inputValue (ui w)) (attachments (ui w))
                   (with_ui w
                      {| inputValue := []; attachments := [];
                         assets := assets (ui w);
                         showCinema := showCinema (ui w);
                         cinemaData := cinemaData (ui w) |})).
  { unfold step. rewrite Hidle, H. reflexivity. }
  split; [exact H|]. split; [exact Hs|].
  rewrite step_reply_ui, Hs.
  repeat split; destruct s; reflexivity.
Qed.

(* ================================================================== *)
(** * The event loop *)
(* ================================================================== *)

Lemma take_flight_some (c : nat) (fs : list Flight) :
  forall f rest,
    take_flight c fs = Some (f, rest) ->
    In f fs /\ flight_call f = c
    /\ (forall g, In g rest -> In g fs)
    /\ length fs = S (length rest).
Proof.
  induction fs as [|g fs IH]; simpl; intros f rest H; [discriminate|].
  destruct (Nat.eqb_spec (flight_call g) c) as [E|E].
  - injection H as <- <-. repeat split; auto.
  - destruct (take_flight c fs) as [[f' rest']|]; [|discriminate].
    injection H as <- <-.
    destruct (IH f' rest' eq_refl) as [H1 [H2 [H3 H4]]].
    split; [right; exact H1|]. split; [exact H2|]. split.
    + intros x [Hx|Hx]; [left; exact Hx | right; auto].
    + simpl. rewrite H4. reflexivity.
Qed.

Lemma take_flight_none (c : nat) (fs : list Flight) :
  take_flight c fs = None ->
  existsb (fun f => (flight_call f =? c)%nat) fs = false.
Proof.
  induction fs as [|g fs IH]; simpl; intros H; [reflexivity|].
  destruct (flight_call g =? c)%nat; [discriminate|].
  destruct (take_flight c fs) as [[f' rest']|]; [discriminate|].
  simpl. auto.
Qed.

Lemma take_timer_some (c : nat) (ts : list nat) :
  forall rest,
    take_timer c ts = Some rest ->
    In c ts /\ forall t, In t rest -> In t ts.
Proof.
  induction ts as [|t ts IH]; simpl; intros rest H; [discriminate|].
  destruct (Nat.eqb_spec t c) as [E|E].
  - injection H as <-. split; auto.
  - destruct (take_timer c ts) as [rest'|]; [|discriminate].
    injection H as <-. destruct (IH rest' eq_refl) as [H1 H2].
    split; [right; exact H1|].
    intros x [Hx|Hx]; [left; exact Hx | right; auto].
Qed.

(** A reply either resolves its placeholder or finds none. *)
Lemma deliver_cases (f : Flight) (r : BackendReply) (s : SessionStore) :
  (exists ms',
      patch_timeline (flight_placeholder f) (patch_of r) (messages s)
      = Some ms'
      /\ deliver f r s
         = ({| sessionId := sessionId s; messages := ms';
               nextMessageId := nextMessageId s;
               storeError := storeError s |},
            ObsResolved (flight_call f) (reply_ok r)))
  \/ (patch_timeline (flight_placeholder f) (patch_of r) (messages s) = None
      /\ deliver f r s
         = ({| sessionId := sessionId s; messages := messages s;
               nextMessageId := nextMessageId s;
               storeError := Some failureText |},
            ObsNotFound (flight_call f))).
Proof.
  unfold deliver, updatePlaceholder.
  destruct (patch_timeline (flight_placeholder f) (patch_of r) (messages s))
    as [ms'|].
  - left. exists ms'. split; reflexivity.
  - right. split; reflexivity.
Qed.

Lemma deliver_sessionId (f : Flight) (r : BackendReply) (s : SessionStore) :
  sessionId (fst (deliver f r s)) = sessionId s.
Proof.
  destruct (deliver_cases f r s) as [[ms' [_ E]]|[_ E]]; rewrite E;
    reflexivity.
Qed.

Lemma deliver_nextMessageId (f : Flight) (r : BackendReply)
  (s : SessionStore) :
  nextMessageId (fst (deliver f r s)) = nextMessageId s.
Proof.
  destruct (deliver_cases f r s) as [[ms' [_ E]]|[_ E]]; rewrite E;
    reflexivity.
Qed.

Lemma step_quiet (w : World) (e : Event) :
  quiet e = true ->
  store (step w e) = store w
  /\ inflight (step w e) = inflight w
  /\ timers (step w e) = timers w
  /\ sends (step w e) = sends w
  /\ log (step w e) = log w.
Proof.
  destruct e; simpl; try discriminate; intros _; try (repeat split; fail).
  destruct (fetching w); [repeat split|].
  unfold loadAssets_resume.
  destruct (assets_success result), (assets_list result); repeat split.
Qed.

(** The facts of [step_quiet] for the quiet event of the goal. *)
Ltac quiet_step w :=
  match goal with
  | |- context [step w ?e] =>
      let Hs := fresh "Hs" in
      let Hi := fresh "Hi" in
      let Ht := fresh "Ht" in
      let Hn := fresh "Hn" in
      let Hl := fresh "Hl" in
      destruct (step_quiet w e eq_refl) as [Hs [Hi [Ht [Hn Hl]]]]
  end.

Lemma step_reply_cases (w : World) (c : nat) (r : BackendReply) :
  (take_flight c (inflight w) = None /\ step w (EvReply c r) = w)
  \/ exists f rest,
       take_flight c (inflight w) = Some (f, rest)
       /\ step w (EvReply c r)
          = {| ui := ui w; store := fst (deliver f r (store w));
               inflight := rest; timers := timers w ++ [c];
               fetching := fetching w; sends := sends w;
               log := (log w ++ [snd (deliver f r (store w))])
                      ++ [ObsScheduled c] |}.
Proof.
  unfold step. destruct (take_flight c (inflight w)) as [[f rest]|].
  - right. exists f, rest. split; [reflexivity|].
    destruct (deliver f r (store w)). reflexivity.
  - left. split; reflexivity.
Qed.

Lemma step_timer_cases (w : World) (c : nat) :
  step w (EvTimer c) = w
  \/ exists rest,
       take_timer c (timers w) = Some rest
       /\ step w (EvTimer c)
          = {| ui := ui w; store := store w; inflight := inflight w;
               timers := rest; fetching := S (fetching w);
               sends := sends w; log := log w ++ [ObsRefresh c] |}.
Proof.
  unfold step. destruct (take_timer c (timers w)) as [rest|].
  - right. exists rest. split; reflexivity.
  - left. reflexivity.
Qed.

Lemma run_app (w : World) (es1 es2 : list Event) :
  run w (es1 ++ es2) = run (run w es1) es2.
Proof. apply fold_left_app. Qed.

Lemma run_invariant (P : World -> Prop) (ok : Event -> bool) :
  (forall w e, ok e = true -> P w -> P (step w e)) ->
  forall es w, forallb ok es = true -> P w -> P (run w es).
Proof.
  intros Hstep. induction es as [|e es IH]; intros w Hes Hw; [exact Hw|].
  simpl in Hes. apply andb_prop in Hes. destruct Hes as [He Hes].
  simpl. apply IH; [exact Hes|]. apply Hstep; assumption.
Qed.

Lemma forallb_true {A} (l : list A) : forallb (fun _ => true) l = true.
Proof. induction l; simpl; auto. Qed.

(* ------------------------------------------------------------------ *)
(** ** Flights *)

Lemma flights_known_step (w : World) (e : Event) :
  flights_known w -> flights_known (step w e).
Proof.
  intros H. destruct e;
    try (quiet_step w; unfold flights_known; rewrite Hs, Hi, Hn; exact H).
  - destruct (step_send_cases w) as [E|[_ [_ E]]]; rewrite E; [exact H|].
    intros f Hf. simpl in Hf. apply in_app_or in Hf. simpl.
    destruct Hf as [Hf|[<-|[]]].
    + destruct (H f Hf). split; lia.
    + simpl. split; lia.
  - destruct (step_reply_cases w c r) as [[_ E]|[f [rest [Ht E]]]];
      rewrite E; [exact H|].
    apply take_flight_some in Ht. destruct Ht as [_ [_ [Hsub _]]].
    intros g Hg. simpl in *. rewrite deliver_sessionId. apply H. auto.
  - destruct (step_timer_cases w c) as [E|[rest [_ E]]]; rewrite E; exact H.
  - intros f Hf. simpl in *. destruct (H f Hf). split; lia.
Qed.

Lemma flights_known_run (es : list Event) :
  flights_known (run initialWorld es).
Proof.
  apply (run_invariant flights_known (fun _ => true)).
  - intros w e _. apply flights_known_step.
  - apply forallb_true.
  - intros f [].
Qed.

(* ------------------------------------------------------------------ *)
(** ** The order of the log *)

Lemma before_snoc (P : Obs -> Prop) (b x : Obs) (l : list Obs) :
  before P b l ->
  (x = b -> exists a, P a /\ In a l) ->
  before P b (l ++ [x]).
Proof.
  intros H Hx l1 l2 E. destruct l2 as [|z l2'].
  - apply app_inj_tail in E. destruct E as [<- E]. apply Hx. exact E.
  - destruct (@exists_last _ (z :: l2')) as [l' [y Hy]]; [discriminate|].
    rewrite Hy, app_comm_cons, app_assoc in E.
    apply app_inj_tail in E. destruct E as [E _].
    apply (H l1 l'). exact E.
Qed.

Lemma before_nil (P : Obs -> Prop) (b : Obs) : before P b [].
Proof. intros [|x l1] l2 E; discriminate. Qed.

Lemma log_ordered_snoc (l : list Obs) (x : Obs) :
  log_ordered l ->
  (forall c, x = ObsPlaceholder c -> In (ObsUser c) l) ->
  (forall c, x = ObsRefresh c -> exists a, resolved c a /\ In a l) ->
  log_ordered (l ++ [x]).
Proof.
  intros H Hp Hr c. destruct (H c) as [H1 H2]. split.
  - apply before_snoc; [exact H1|]. intros E.
    exists (ObsUser c). split; [reflexivity|]. apply Hp. exact E.
  - apply before_snoc; [exact H2|]. intros E. apply Hr. exact E.
Qed.

Lemma patch_timeline_some (pid : nat) (p : Patch) (ms : list Message) :
  (exists m, In m ms /\ msg_id m = pid /\ isLoading m = true) ->
  exists ms', patch_timeline pid p ms = Some ms'.
Proof.
  induction ms as [|x ms IH]; intros [m [Hin [Hid Hload]]];
    [contradiction|].
  simpl. destruct ((msg_id x =? pid)%nat && isLoading x) eqn:E.
  - eexists. reflexivity.
  - destruct Hin as [->|Hin].
    + rewrite Hid, Nat.eqb_refl, Hload in E. discriminate.
    + destruct IH as [ms' Hms']; [exists m; auto|].
      rewrite Hms'. eexists. reflexivity.
Qed.

(** A reply whose placeholder is loading in the timeline resolves it. *)
Lemma deliver_resolves (f : Flight) (r : BackendReply) (s : SessionStore) :
  (exists m, In m (messages s) /\ msg_id m = flight_placeholder f
             /\ isLoading m = true) ->
  snd (deliver f r s) = ObsResolved (flight_call f) (reply_ok r).
Proof.
  intros Hm. unfold deliver, updatePlaceholder.
  destruct (patch_timeline_some _ (patch_of r) _ Hm) as [ms' ->].
  reflexivity.
Qed.

Lemma not_processing_idle (w : World) :
  (forall f, In f (inflight w) -> flight_session f = sessionId (store w)) ->
  isProcessing w = false -> inflight w = [].
Proof.
  unfold isProcessing. intros H Hp.
  destruct (inflight w) as [|f fs]; [reflexivity|].
  simpl in Hp. rewrite (H f (or_introl eq_refl)), Nat.eqb_refl in Hp.
  discriminate.
Qed.

Lemma single_flight_step (w : World) (e : Event) :
  is_new_chat e = false -> single_flight w -> single_flight (step w e).
Proof.
  intros He [Hlen [Hfl [Htm Hlog]]]. destruct e; try discriminate;
    try (quiet_step w; unfold single_flight; rewrite Hs, Hi, Ht, Hl;
         exact (conj Hlen (conj Hfl (conj Htm Hlog)))).
  - (* send *)
    destruct (step_send_cases w) as [E|[Hidle [_ E]]]; rewrite E;
      [exact (conj Hlen (conj Hfl (conj Htm Hlog)))|].
    assert (Hnil : inflight w = []).
    { apply not_processing_idle; [|exact Hidle].
      intros f Hf. apply (Hfl f Hf). }
    unfold sendUserMessage, single_flight. simpl. rewrite Hnil. simpl.
    split; [lia|]. split; [|split].
    + intros f [<-|[]]. simpl. split; [reflexivity|].
      eexists. split; [apply in_or_app; right; left; reflexivity|].
      split; reflexivity.
    + intros c Hc. destruct (Htm c Hc) as [a [Ha Hin]].
      exists a. split; [exact Ha|]. apply in_or_app. left. exact Hin.
    + change (log w ++ [ObsUser (sends w); ObsPlaceholder (sends w);
                        ObsBackendCall (sends w)])
        with (log w ++ [ObsUser (sends w)]
              ++ [ObsPlaceholder (sends w)] ++ [ObsBackendCall (sends w)]).
      rewrite !app_assoc.
      apply log_ordered_snoc; [apply log_ordered_snoc;
                               [apply log_ordered_snoc|..]|..];
        try exact Hlog; try discriminate.
      intros c Ec. injection Ec as <-. apply in_or_app. right. left.
      reflexivity.
  - (* reply *)
    destruct (step_reply_cases w c r) as [[_ E]|[f [rest [Htake E]]]];
      rewrite E; [exact (conj Hlen (conj Hfl (conj Htm Hlog)))|].
    destruct (take_flight_some _ _ _ _ Htake) as [Hf [Hcall [_ Hl]]].
    assert (Hrest : rest = []).
    { destruct rest; [reflexivity|]. simpl in Hl. lia. }
    destruct (Hfl f Hf) as [Hsess Hmsg].
    rewrite (deliver_resolves f r (store w) Hmsg), Hcall, Hrest.
    unfold single_flight. simpl. split; [lia|]. split; [intros g []|]. split.
    + intros c' Hc'. apply in_app_or in Hc'. destruct Hc' as [Hc'|[<-|[]]].
      * destruct (Htm c' Hc') as [a [Ha Hin]]. exists a.
        split; [exact Ha|]. apply in_or_app. left. apply in_or_app.
        left. exact Hin.
      * exists (ObsResolved c (reply_ok r)).
        split; [exists (reply_ok r); reflexivity|].
        apply in_or_app. left. apply in_or_app. right. left. reflexivity.
    + apply log_ordered_snoc; [apply log_ordered_snoc|..];
        try exact Hlog; discriminate.
  - (* timer *)
    destruct (step_timer_cases w c) as [E|[rest [Htake E]]]; rewrite E;
      [exact (conj Hlen (conj Hfl (conj Htm Hlog)))|].
    destruct (take_timer_some _ _ _ Htake) as [Hc Hsub].
    unfold single_flight. simpl. split; [exact Hlen|]. split; [exact Hfl|]. split.
    + intros c' Hc'. destruct (Htm c' (Hsub c' Hc')) as [a [Ha Hin]].
      exists a. split; [exact Ha|]. apply in_or_app. left. exact Hin.
    + apply log_ordered_snoc; [exact Hlog|discriminate|].
      intros c' Ec. injection Ec as <-. apply Htm. exact Hc.
Qed.

Lemma single_flight_run (es : list Event) :
  forallb (fun e => negb (is_new_chat e)) es = true ->
  single_flight (run initialWorld es).
Proof.
  intros Hes.
  apply (run_invariant single_flight (fun e => negb (is_new_chat e))).
  - intros w e He. apply single_flight_step.
    apply negb_true_iff. exact He.
  - exact Hes.
  - split; [simpl; lia|]. split; [intros f []|]. split; [intros c []|].
    intros c. split; apply before_nil.
Qed.

(** As long as no new chat is started, in every run of the event loop and
    for every call [c] of [sendUserMessage], whatever else happens in
    between: the placeholder of [c] is appended only after its user message,
    and the refresh set up after [c] fires only after the placeholder of [c]
    was resolved, with the reply or with the error. *)
Lemma log_order_without_new_chat :
  forall (es : list Event) (c : nat),
    forallb (fun e => negb (is_new_chat e)) es = true ->
    let w := run initialWorld es in
    precedes (ObsUser c) (ObsPlaceholder c) (log w)
    /\ (forall l1 l2, log w = l1 ++ ObsRefresh c :: l2 ->
          In (ObsResolved c true) l1 \/ In (ObsResolved c false) l1)
    /\ (step w EvSend = w
        \/ exists u p,
             messages (store (step w EvSend))
             = messages (store w) ++ [u; p]
             /\ role u = user /\ text u = inputValue (ui w)
             /\ isLoading u = false
             /\ role p = model /\ isLoading p = true).
Proof.
  intros es c Hes w.
  destruct (single_flight_run es Hes) as [_ [_ [_ Hlog]]].
  destruct (Hlog c) as [H1 H2]. fold w in H1, H2. split; [|split].
  - intros l1 l2 E. destruct (H1 l1 l2 E) as [a [<- Ha]]. exact Ha.
  - intros l1 l2 E. destruct (H2 l1 l2 E) as [a [[ok ->] Ha]].
    destruct ok; [left|right]; exact Ha.
  - destruct (step_send_cases w) as [E|[_ [_ E]]]; [left; exact E|right].
    rewrite E. unfold sendUserMessage. simpl. rewrite <- app_assoc.
    eexists. eexists. split; [reflexivity|]. repeat split.
Qed.

(* ------------------------------------------------------------------ *)
(** ** Sends issued one at a time *)

Lemma run_attached (atts : list Attachment) :
  forall w : World,
    let w1 := run w (map EvAttached atts) in
    store w1 = store w /\ inflight w1 = inflight w /\ sends w1 = sends w
    /\ inputValue (ui w1) = inputValue (ui w)
    /\ attachments (ui w1) = attachments (ui w) ++ atts.
Proof.
  induction atts as [|a atts IH]; intros w; simpl.
  - repeat split. symmetry. apply app_nil_r.
  - destruct (IH (with_ui w (apply_action (ui w) (AppendAttachment a))))
      as [H1 [H2 [H3 [H4 H5]]]].
    simpl in *. rewrite H1, H2, H3, H4, H5, <- app_assoc. repeat split.
Qed.

(** What is typed and attached before the click. *)
Lemma run_typing (w : World) (t : jsstring) (atts : list Attachment) :
  let w1 := run w (EvChange t :: map EvAttached atts) in
  store w1 = store w /\ inflight w1 = inflight w /\ sends w1 = sends w
  /\ inputValue (ui w1) = t
  /\ attachments (ui w1) = attachments (ui w) ++ atts.
Proof.
  simpl.
  destruct (run_attached atts
              (with_ui w (apply_action (ui w) (SetInputValue t))))
    as [H1 [H2 [H3 [H4 H5]]]].
  simpl in *. rewrite H1, H2, H3, H4, H5. repeat split.
Qed.

Lemma patch_timeline_last (pid : nat) (p : Patch) (u ph : Message) :
  forall ms : list Message,
    Forall (fun m => isLoading m = false) ms ->
    isLoading u = false -> msg_id ph = pid -> isLoading ph = true ->
    patch_timeline pid p (ms ++ [u; ph]) = Some (ms ++ [u; patched ph p]).
Proof.
  intros ms Hms Hu Hid Hph. induction Hms as [|m ms Hm _ IH]; simpl.
  - rewrite Hu, andb_false_r. simpl.
    rewrite Hid, Nat.eqb_refl, Hph. reflexivity.
  - rewrite Hm, andb_false_r, IH. reflexivity.
Qed.

Lemma submit_settles (w : World) (s : Submission) :
  at_rest w ->
  at_rest (submit w s)
  /\ sessionId (store (submit w s)) = sessionId (store w)
  /\ messages (store (submit w s))
     = messages (store w)
       ++ (if accepted s
           then settled_pair (nextMessageId (store w)) s else [])
  /\ nextMessageId (store (submit w s))
     = if accepted s then S (S (nextMessageId (store w)))
       else nextMessageId (store w).
Proof.
  intros [Hfl [Hatt Hload]]. unfold submit.
  rewrite app_comm_cons, run_app.
  destruct (run_typing w (sub_text s) (sub_attachments s))
    as [H1 [H2 [H3 [H4 H5]]]].
  set (w1 := run w (EvChange (sub_text s)
                    :: map EvAttached (sub_attachments s))) in *.
  rewrite Hfl in H2. rewrite Hatt in H5. simpl in H5.
  assert (Hidle : isProcessing w1 = false).
  { unfold isProcessing. rewrite H2. reflexivity. }
  change (run w1 [EvSend; EvReply (sends w) (sub_reply s)])
    with (step (step w1 EvSend) (EvReply (sends w) (sub_reply s))).
  assert (E : step w1 EvSend
              = if accepted s
                then sendUserMessage (sub_text s) (sub_attachments s)
                       (with_ui w1
                          (apply_action
                             (apply_action (ui w1) (SetInputValue []))
                             (SetAttachments [])))
                else w1).
  { unfold step. rewrite Hidle. unfold handleSend, accepted.
    rewrite H4, H5.
    destruct (negb (truthy (trim (sub_text s)))
              && (length (sub_attachments s) =? 0)%nat); reflexivity. }
  rewrite E. destruct (accepted s) eqn:Hacc.
  - (* user message, placeholder, reply *)
    unfold step, sendUserMessage. simpl. rewrite H1, H2, H3. simpl.
    rewrite Nat.eqb_refl.
    unfold deliver, updatePlaceholder. simpl.
    rewrite <- app_assoc. simpl.
    erewrite patch_timeline_last by (try exact Hload; reflexivity).
    simpl. unfold at_rest. simpl. repeat split.
    apply Forall_app. split; [exact Hload|].
    repeat constructor.
  - (* the guard stops the send *)
    unfold step. rewrite H2. simpl. unfold at_rest.
    rewrite H1, H2, H5, app_nil_r.
    unfold accepted in Hacc. apply negb_false_iff in Hacc.
    apply andb_prop in Hacc. destruct Hacc as [_ Hg].
    apply Nat.eqb_eq in Hg.
    destruct (sub_attachments s); [|discriminate]. repeat split; assumption.
Qed.

Lemma one_at_a_time_timeline (ss : list Submission) :
  forall w : World,
    at_rest w ->
    at_rest (one_at_a_time w ss)
    /\ messages (store (one_at_a_time w ss))
       = messages (store w)
         ++ expected_timeline (nextMessageId (store w)) ss.
Proof.
  induction ss as [|s ss IH]; intros w Hw; simpl.
  - split; [exact Hw|]. symmetry. apply app_nil_r.
  - destruct (submit_settles w s Hw) as [Hs [_ [Hm Hn]]].
    destruct (IH (submit w s) Hs) as [Hs' Hm'].
    split; [exact Hs'|]. rewrite Hm', Hm, Hn.
    destruct (accepted s).
    + rewrite <- app_assoc. reflexivity.
    + rewrite app_nil_r. reflexivity.
Qed.

Lemma expected_timeline_roles (ss : list Submission) :
  forall n : nat,
    map role (expected_timeline n ss)
    = flat_map (fun _ => [user; model]) (filter accepted ss).
Proof.
  induction ss as [|s ss IH]; intros n; simpl; [reflexivity|].
  destruct (accepted s); simpl; rewrite IH; reflexivity.
Qed.

Lemma initial_at_rest : at_rest initialWorld.
Proof. repeat split. constructor. Qed.

(** C2: when each send is started and settled before the next one, the
    timeline is, in send order, the user message of every submission that
    passes the guard followed by its reply, so user and model messages
    alternate; no message is left loading, nothing is in flight and the hook
    is not processing. *)
Theorem sends_one_at_a_time_alternate :
  forall ss : list Submission,
    let w := one_at_a_time initialWorld ss in
    messages (store w) = expected_timeline 0 ss
    /\ map role (messages (store w))
       = flat_map (fun _ => [user; model]) (filter accepted ss)
    /\ forallb (fun m => negb (isLoading m)) (messages (store w)) = true
    /\ inflight w = []
    /\ isProcessing w = false.
Proof.
  intros ss w.
  destruct (one_at_a_time_timeline ss initialWorld initial_at_rest)
    as [[Hfl [_ Hload]] Hm].
  fold w in Hfl, Hload, Hm. simpl in Hm.
  split; [exact Hm|]. split; [|split; [|split]].
  - rewrite Hm. apply expected_timeline_roles.
  - apply forallb_forall. intros m Hin.
    rewrite Forall_forall in Hload. rewrite (Hload m Hin). reflexivity.
  - exact Hfl.
  - unfold isProcessing. rewrite Hfl. reflexivity.
Qed.

(* ------------------------------------------------------------------ *)
(** ** What the event loop keeps *)

Lemma patch_timeline_ids (P : nat -> Prop) (pid : nat) (p : Patch) :
  forall ms ms' : list Message,
    Forall (fun m => P (msg_id m)) ms ->
    patch_timeline pid p ms = Some ms' ->
    Forall (fun m => P (msg_id m)) ms'.
Proof.
  induction ms as [|m ms IH]; simpl; intros ms' H E; [discriminate|].
  inversion H as [|? ? Hm Hms]; subst.
  destruct ((msg_id m =? pid)%nat && isLoading m).
  - injection E as <-. constructor; assumption.
  - destruct (patch_timeline pid p ms) as [ms0|]; [|discriminate].
    injection E as <-. constructor; [exact Hm|]. apply IH; auto.
Qed.

Lemma patch_timeline_map_ids (pid : nat) (p : Patch) :
  forall ms ms' : list Message,
    patch_timeline pid p ms = Some ms' -> map msg_id ms' = map msg_id ms.
Proof.
  induction ms as [|m ms IH]; simpl; intros ms' E; [discriminate|].
  destruct ((msg_id m =? pid)%nat && isLoading m).
  - injection E as <-. reflexivity.
  - destruct (patch_timeline pid p ms) as [ms0|]; [|discriminate].
    injection E as <-. simpl. rewrite (IH ms0 eq_refl). reflexivity.
Qed.

(** Patching one id keeps the messages with another id. *)
Lemma patch_timeline_other (pid : nat) (p : Patch) (m : Message) :
  forall ms ms' : list Message,
    In m ms -> msg_id m <> pid ->
    patch_timeline pid p ms = Some ms' -> In m ms'.
Proof.
  induction ms as [|x ms IH]; simpl; intros ms' Hin Hne E; [discriminate|].
  destruct ((msg_id x =? pid)%nat && isLoading x) eqn:C.
  - injection E as <-. destruct Hin as [->|Hin]; [|right; exact Hin].
    apply andb_prop in C. destruct C as [C _]. apply Nat.eqb_eq in C.
    contradiction.
  - destruct (patch_timeline pid p ms) as [ms0|]; [|discriminate].
    injection E as <-. destruct Hin as [->|Hin]; [left; reflexivity|].
    right. apply (IH ms0); auto.
Qed.


(** With ids used once, the loading message is the one that is patched. *)
Lemma patch_timeline_unique (p : Patch) (m : Message) :
  forall ms : list Message,
    NoDup (map msg_id ms) -> In m ms -> isLoading m = true ->
    exists ms',
      patch_timeline (msg_id m) p ms = Some ms' /\ In (patched m p) ms'.
Proof.
  induction ms as [|x ms IH]; simpl; intros Hnd Hin Hload; [contradiction|].
  inversion Hnd as [|? ? Hx Hrest]; subst.
  destruct ((msg_id x =? msg_id m)%nat && isLoading x) eqn:C.
  - eexists. split; [reflexivity|]. left.
    destruct Hin as [->|Hin]; [reflexivity|].
    apply andb_prop in C. destruct C as [C _]. apply Nat.eqb_eq in C.
    exfalso. apply Hx. rewrite C. apply in_map. exact Hin.
  - destruct Hin as [->|Hin].
    + rewrite Nat.eqb_refl, Hload in C. discriminate.
    + destruct (IH Hrest Hin Hload) as [ms' [E Hp]]. rewrite E.
      eexists. split; [reflexivity|]. right. exact Hp.
Qed.

Lemma deliver_ids_kept (P : nat -> Prop) (f : Flight) (r : BackendReply)
  (s : SessionStore) :
  Forall (fun m => P (msg_id m)) (messages s) ->
  Forall (fun m => P (msg_id m)) (messages (fst (deliver f r s))).
Proof.
  intros H. destruct (deliver_cases f r s) as [[ms' [Hp E]]|[_ E]];
    rewrite E; simpl; [|exact H].
  apply (patch_timeline_ids P _ _ _ _ H Hp).
Qed.

Lemma deliver_map_ids (f : Flight) (r : BackendReply) (s : SessionStore) :
  map msg_id (messages (fst (deliver f r s))) = map msg_id (messages s).
Proof.
  destruct (deliver_cases f r s) as [[ms' [Hp E]]|[_ E]]; rewrite E; simpl;
    [|reflexivity].
  apply (patch_timeline_map_ids _ _ _ _ Hp).
Qed.

Lemma deliver_no_refresh (f : Flight) (r : BackendReply) (s : SessionStore)
  (c : nat) :
  snd (deliver f r s) <> ObsRefresh c.
Proof.
  destruct (deliver_cases f r s) as [[ms' [_ E]]|[_ E]]; rewrite E;
    discriminate.
Qed.

Lemma ids_known_step (w : World) (e : Event) :
  flights_known w -> ids_known w -> ids_known (step w e).
Proof.
  intros Hfl [Ht Hm]. destruct e;
    try (quiet_step w; unfold ids_known; rewrite Hs, Ht0, Hn;
         exact (conj Ht Hm)).
  - destruct (step_send_cases w) as [E|[_ [_ E]]]; rewrite E;
      [exact (conj Ht Hm)|].
    unfold ids_known, sendUserMessage. simpl. split.
    + intros t Hin. specialize (Ht t Hin). lia.
    + rewrite <- app_assoc. apply Forall_app. split.
      * eapply Forall_impl; [|exact Hm]. simpl. intros m Hlt. lia.
      * repeat constructor; simpl; lia.
  - destruct (step_reply_cases w c r) as [[_ E]|[f [rest [Htake E]]]];
      rewrite E; [exact (conj Ht Hm)|].
    destruct (take_flight_some _ _ _ _ Htake) as [Hf [Hcall _]].
    unfold ids_known. simpl. split.
    + intros t Hin. apply in_app_or in Hin. destruct Hin as [Hin|[<-|[]]].
      * apply Ht. exact Hin.
      * destruct (Hfl f Hf) as [Hlt _]. lia.
    + rewrite deliver_nextMessageId.
      apply (deliver_ids_kept (fun i => (i < nextMessageId (store w))%nat)).
      exact Hm.
  - destruct (step_timer_cases w c) as [E|[rest [Htake E]]]; rewrite E;
      [exact (conj Ht Hm)|].
    destruct (take_timer_some _ _ _ Htake) as [_ Hsub].
    unfold ids_known. simpl. split; [|exact Hm].
    intros t Hin. apply Ht. apply Hsub. exact Hin.
  - unfold ids_known. simpl. split; [exact Ht|constructor].
Qed.

Lemma NoDup_snoc {A} (l : list A) (x : A) :
  NoDup l -> ~ In x l -> NoDup (l ++ [x]).
Proof.
  intros Hl Hx. induction Hl as [|y l Hy _ IH]; simpl.
  - constructor; [intros []|constructor].
  - constructor.
    + intros Hin. apply in_app_or in Hin. destruct Hin as [Hin|[->|[]]].
      * contradiction.
      * apply Hx. left. reflexivity.
    + apply IH. intros Hin. apply Hx. right. exact Hin.
Qed.

Lemma take_flight_nodup (c : nat) (fs : list Flight) :
  forall f rest,
    NoDup (map flight_call fs) ->
    take_flight c fs = Some (f, rest) ->
    NoDup (map flight_call rest) /\ ~ In c (map flight_call rest).
Proof.
  induction fs as [|g fs IH]; simpl; intros f rest Hnd H; [discriminate|].
  inversion Hnd as [|? ? Hg Hfs]; subst.
  destruct (Nat.eqb_spec (flight_call g) c) as [E|E].
  - injection H as <- <-. split; [exact Hfs|]. rewrite <- E. exact Hg.
  - destruct (take_flight c fs) as [[f' rest']|] eqn:T; [|discriminate].
    injection H as <- <-.
    destruct (IH f' rest' Hfs eq_refl) as [H1 H2].
    destruct (take_flight_some _ _ _ _ T) as [_ [_ [Hsub _]]].
    split; simpl.
    + constructor; [|exact H1]. intros Hin. apply Hg.
      apply in_map_iff in Hin. destruct Hin as [x [Hx Hin]].
      apply in_map_iff. exists x. split; [exact Hx|]. apply Hsub. exact Hin.
    + intros [Hc|Hc]; [contradiction|]. apply H2. exact Hc.
Qed.

Lemma tidy_step (w : World) (e : Event) :
  flights_known w -> ids_known w -> tidy w -> tidy (step w e).
Proof.
  intros Hfl [Htm Hms] [Hcalls [Hph [Hlog Hids]]]. destruct e;
    try (quiet_step w; unfold tidy; rewrite Hs, Hi, Hn, Hl;
         exact (conj Hcalls (conj Hph (conj Hlog Hids)))).
  - destruct (step_send_cases w) as [E|[_ [_ E]]]; rewrite E;
      [exact (conj Hcalls (conj Hph (conj Hlog Hids)))|].
    unfold tidy, sendUserMessage. simpl. split; [|split; [|split]].
    + rewrite map_app. simpl. apply NoDup_snoc; [exact Hcalls|].
      intros Hin. apply in_map_iff in Hin. destruct Hin as [g [Hg Hin]].
      destruct (Hfl g Hin) as [Hlt _]. lia.
    + intros f Hin. apply in_app_or in Hin. destruct Hin as [Hin|[<-|[]]].
      * specialize (Hph f Hin). lia.
      * simpl. lia.
    + intros c Hin. apply in_app_or in Hin. destruct Hin as [Hin|Hin].
      * specialize (Hlog c Hin). lia.
      * destruct Hin as [H|[H|[H|[]]]]; discriminate.
    + rewrite !map_app. simpl.
      apply NoDup_snoc; [apply NoDup_snoc; [exact Hids|]|].
      * intros Hin. apply in_map_iff in Hin. destruct Hin as [m [Hm Hin]].
        rewrite Forall_forall in Hms. specialize (Hms m Hin). lia.
      * intros Hin. apply in_app_or in Hin. destruct Hin as [Hin|[Hin|[]]].
        -- apply in_map_iff in Hin. destruct Hin as [m [Hm Hin]].
           rewrite Forall_forall in Hms. specialize (Hms m Hin). lia.
        -- lia.
  - destruct (step_reply_cases w c r) as [[_ E]|[f [rest [Htake E]]]];
      rewrite E; [exact (conj Hcalls (conj Hph (conj Hlog Hids)))|].
    destruct (take_flight_some _ _ _ _ Htake) as [_ [_ [Hsub _]]].
    destruct (take_flight_nodup _ _ _ _ Hcalls Htake) as [Hnd _].
    unfold tidy. simpl. split; [exact Hnd|]. split; [|split].
    + intros g Hg. rewrite deliver_nextMessageId. apply Hph. auto.
    + intros c' Hin. apply in_app_or in Hin.
      destruct Hin as [Hin|[H|[]]]; [|discriminate].
      apply in_app_or in Hin. destruct Hin as [Hin|[H|[]]].
      * apply Hlog. exact Hin.
      * exfalso. apply (deliver_no_refresh f r (store w) c'). exact H.
    + rewrite deliver_map_ids. exact Hids.
  - destruct (step_timer_cases w c) as [E|[rest [Htake E]]]; rewrite E;
      [exact (conj Hcalls (conj Hph (conj Hlog Hids)))|].
    destruct (take_timer_some _ _ _ Htake) as [Hc _].
    unfold tidy. simpl. split; [exact Hcalls|]. split; [exact Hph|].
    split; [|exact Hids].
    intros c' Hin. apply in_app_or in Hin. destruct Hin as [Hin|[H|[]]].
    + apply Hlog. exact Hin.
    + injection H as <-. apply Htm. exact Hc.
  - unfold tidy. simpl. split; [exact Hcalls|]. split; [exact Hph|].
    split; [exact Hlog|constructor].
Qed.

(** What every run from the mounted component keeps. *)
Lemma reachable (es : list Event) :
  flights_known (run initialWorld es)
  /\ ids_known (run initialWorld es)
  /\ tidy (run initialWorld es).
Proof.
  apply (run_invariant
           (fun w => flights_known w /\ ids_known w /\ tidy w)
           (fun _ => true)).
  - intros w e _ [H1 [H2 H3]]. split; [|split].
    + apply flights_known_step. exact H1.
    + apply ids_known_step; assumption.
    + apply tidy_step; assumption.
  - apply forallb_true.
  - split; [intros f []|]. split.
    + split; [intros t []|constructor].
    + split; [constructor|]. split; [intros f []|].
      split; [intros c []|constructor].
Qed.

Lemma sends_grow (w : World) (e : Event) :
  (sends w <= sends (step w e))%nat.
Proof.
  destruct e; try (quiet_step w; rewrite Hn; lia).
  - destruct (step_send_cases w) as [E|[_ [_ E]]]; rewrite E; simpl; lia.
  - destruct (step_reply_cases w c r) as [[_ E]|[f [rest [_ E]]]];
      rewrite E; simpl; lia.
  - destruct (step_timer_cases w c) as [E|[rest [_ E]]]; rewrite E;
      simpl; lia.
  - simpl. lia.
Qed.

Lemma in_flight_exists (c : nat) (w : World) :
  in_flight c w = true <->
  exists f, In f (inflight w) /\ flight_call f = c.
Proof.
  unfold in_flight. rewrite existsb_exists. split.
  - intros [f [Hf Hc]]. exists f. split; [exact Hf|].
    apply Nat.eqb_eq. exact Hc.
  - intros [f [Hf Hc]]. exists f. split; [exact Hf|].
    apply Nat.eqb_eq. exact Hc.
Qed.

Lemma take_timer_fresh (c : nat) :
  forall ts : list nat,
    ~ In c ts ->
    take_timer c ts = None /\ take_timer c (ts ++ [c]) = Some ts.
Proof.
  induction ts as [|t ts IH]; simpl; intros H.
  - rewrite Nat.eqb_refl. split; reflexivity.
  - destruct (Nat.eqb_spec t c) as [E|E].
    + exfalso. apply H. left. exact E.
    + destruct IH as [H1 H2]; [intros Hx; apply H; right; exact Hx|].
      rewrite H1, H2. split; reflexivity.
Qed.

(* ------------------------------------------------------------------ *)
(** ** A reply after a new chat *)





(* ------------------------------------------------------------------ *)
(** ** One send call from start to refresh *)

Lemma awaiting_step (c : nat) (ph : Message) (w : World) (e : Event) :
  is_new_chat e = false -> (c < sends w)%nat -> tidy w ->
  awaiting c ph w -> awaiting c ph (step w e).
Proof.
  intros He Hc [Hcalls _] H. destruct e; try discriminate;
    try (quiet_step w; unfold awaiting, in_flight;
         rewrite Hs, Hi, Ht, Hl; exact H).
  - (* send *)
    destruct (step_send_cases w) as [E|[Hidle [_ E]]]; rewrite E;
      [exact H|].
    intros Hin. exfalso.
    assert (Hin' : in_flight c w = true).
    { unfold in_flight, sendUserMessage in Hin. simpl in Hin.
      rewrite existsb_app in Hin. simpl in Hin.
      destruct (Nat.eqb_spec (sends w) c) as [Heq|_]; [lia|].
      rewrite orb_false_r in Hin. exact Hin. }
    destruct (H Hin') as [H1 _].
    apply in_flight_exists in Hin'. destruct Hin' as [f [Hf Hcall]].
    destruct (H1 f Hf Hcall) as [Hsess _].
    unfold isProcessing in Hidle.
    assert (Hp : existsb
                   (fun g => (flight_session g =? sessionId (store w))%nat)
                   (inflight w) = true).
    { apply existsb_exists. exists f. split; [exact Hf|].
      apply Nat.eqb_eq. exact Hsess. }
    rewrite Hp in Hidle. discriminate.
  - (* reply *)
    destruct (step_reply_cases w c0 r) as [[_ E]|[g [rest [Htake E]]]];
      rewrite E; [exact H|].
    destruct (take_flight_some _ _ _ _ Htake) as [Hg [Hgcall [Hsub _]]].
    destruct (take_flight_nodup _ _ _ _ Hcalls Htake) as [_ Hnot].
    intros Hin. unfold in_flight in Hin. simpl in Hin.
    apply existsb_exists in Hin. destruct Hin as [f [Hf Hfcall]].
    apply Nat.eqb_eq in Hfcall.
    assert (Hne : c0 <> c).
    { intros ->. apply Hnot. rewrite <- Hfcall. apply in_map. exact Hf. }
    assert (Hin' : in_flight c w = true).
    { apply in_flight_exists. exists f. split; [apply Hsub; exact Hf|].
      exact Hfcall. }
    destruct (H Hin') as [H1 [H2 [H3 [H4 H5]]]].
    assert (Hgph : flight_placeholder g <> msg_id ph).
    { apply H2; [exact Hg|]. rewrite Hgcall. exact Hne. }
    simpl. split; [|split; [|split; [|split]]].
    + intros f' Hf' Hc'. rewrite deliver_sessionId. apply H1; auto.
    + intros g' Hg' Hc'. apply H2; auto.
    + destruct (deliver_cases g r (store w)) as [[ms' [Hp Ed]]|[_ Ed]];
        rewrite Ed; simpl; [|exact H3].
      apply (patch_timeline_other _ _ _ _ _ H3 (not_eq_sym Hgph) Hp).
    + intros Hx. apply in_app_or in Hx. destruct Hx as [Hx|[Hx|[]]].
      * contradiction.
      * contradiction.
    + intros Hx. apply in_app_or in Hx.
      destruct Hx as [Hx|[Hx|[]]]; [|discriminate].
      apply in_app_or in Hx. destruct Hx as [Hx|[Hx|[]]].
      * contradiction.
      * apply (deliver_no_refresh g r (store w) c). exact Hx.
  - (* timer *)
    destruct (step_timer_cases w c0) as [E|[rest [Htake E]]]; rewrite E;
      [exact H|].
    destruct (take_timer_some _ _ _ Htake) as [Hc0 Hsub].
    intros Hin. change (in_flight c w = true) in Hin.
    destruct (H Hin) as [H1 [H2 [H3 [H4 H5]]]].
    simpl. split; [exact H1|]. split; [exact H2|]. split; [exact H3|].
    split.
    + intros Hx. apply H4. apply Hsub. exact Hx.
    + intros Hx. apply in_app_or in Hx. destruct Hx as [Hx|[Hx|[]]].
      * contradiction.
      * injection Hx as ->. contradiction.
Qed.

Lemma awaiting_run (c : nat) (ph : Message) (es : list Event) (w : World) :
  forallb (fun e => negb (is_new_chat e)) es = true ->
  flights_known w -> ids_known w -> tidy w -> (c < sends w)%nat ->
  awaiting c ph w ->
  tidy (run w es) /\ awaiting c ph (run w es).
Proof.
  intros Hes H1 H2 H3 H4 H5.
  assert (H : flights_known (run w es) /\ ids_known (run w es)
              /\ tidy (run w es) /\ (c < sends (run w es))%nat
              /\ awaiting c ph (run w es)).
  { apply (run_invariant
             (fun w' => flights_known w' /\ ids_known w' /\ tidy w'
                        /\ (c < sends w')%nat /\ awaiting c ph w')
             (fun e => negb (is_new_chat e))).
    - intros w' e He [G1 [G2 [G3 [G4 G5]]]].
      apply negb_true_iff in He.
      split; [apply flights_known_step; exact G1|].
      split; [apply ids_known_step; assumption|].
      split; [apply tidy_step; assumption|].
      split; [pose proof (sends_grow w' e); lia|].
      apply awaiting_step; assumption.
    - exact Hes.
    - exact (conj H1 (conj H2 (conj H3 (conj H4 H5)))). }
  destruct H as [_ [_ [G3 [_ G5]]]]. split; assumption.
Qed.

(** C7: a send call that passes the guard, from any state the component
    can reach while the hook is not processing, followed by any events
    other than a new chat until its reply arrives: the timeline gets the
    user message and after it the loading placeholder; up to the reply the
    placeholder stays in the timeline and no refresh for the call is
    pending or has started; the reply resolves the placeholder, with the
    reply or with the error, and only then is the refresh scheduled; the
    timer then starts the refresh. *)
Theorem send_call_order_until_new_chat :
  forall (past mid : list Event) (r : BackendReply),
    let w := run initialWorld past in
    let c := sends w in
    isProcessing w = false ->
    negb (truthy (trim (inputValue (ui w))))
    && (length (attachments (ui w)) =? 0)%nat = false ->
    forallb (fun e => negb (is_new_chat e)) mid = true ->
    let w1 := run (step w EvSend) mid in
    in_flight c w1 = true ->
    messages (store (step w EvSend))
    = messages (store w) ++ [user_message w; placeholder w]
    /\ log (step w EvSend)
       = log w ++ [ObsUser c; ObsPlaceholder c; ObsBackendCall c]
    /\ In (placeholder w) (messages (store w1))
    /\ ~ In c (timers w1)
    /\ ~ In (ObsRefresh c) (log w1)
    /\ In (patched (placeholder w) (patch_of r))
          (messages (store (step w1 (EvReply c r))))
    /\ log (step w1 (EvReply c r))
       = log w1 ++ [ObsResolved c (reply_ok r); ObsScheduled c]
    /\ timers (step w1 (EvReply c r)) = timers w1 ++ [c]
    /\ log (step (step w1 (EvReply c r)) (EvTimer c))
       = log w1 ++ [ObsResolved c (reply_ok r); ObsScheduled c;
                    ObsRefresh c].
Proof.
  intros past mid r w c Hidle Hguard Hmid w1 Hfly.
  destruct (reachable past) as [Hfl [Hids Htidy]].
  fold w in Hfl, Hids, Htidy.
  assert (E : step w EvSend
              = sendUserMessage (inputValue (ui w)) (attachments (ui w))
                  (with_ui w
                     (apply_action (apply_action (ui w) (SetInputValue []))
                                   (SetAttachments [])))).
  { unfold step. rewrite Hidle. unfold handleSend. rewrite Hguard.
    reflexivity. }
  assert (Hm0 : messages (store (step w EvSend))
                = messages (store w) ++ [user_message w; placeholder w]).
  { rewrite E. unfold sendUserMessage. simpl. rewrite <- app_assoc.
    reflexivity. }
  assert (Hl0 : log (step w EvSend)
                = log w ++ [ObsUser c; ObsPlaceholder c; ObsBackendCall c]).
  { rewrite E. reflexivity. }
  (* the call starts to wait *)
  assert (Hstart : awaiting c (placeholder w) (step w EvSend)).
  { intros _. destruct Hids as [Htm _].
    destruct Htidy as [_ [Hph [Hlog _]]].
    split; [|split; [|split; [|split]]].
    - intros f Hf Hcall. rewrite E in Hf. unfold sendUserMessage in Hf.
      simpl in Hf. apply in_app_or in Hf. destruct Hf as [Hf|[<-|[]]].
      + destruct (Hfl f Hf) as [Hlt _]. unfold c in Hcall. lia.
      + rewrite E. split; reflexivity.
    - intros g Hg Hcall. rewrite E in Hg. unfold sendUserMessage in Hg.
      simpl in Hg. apply in_app_or in Hg. destruct Hg as [Hg|[<-|[]]].
      + specialize (Hph g Hg). simpl. lia.
      + exfalso. apply Hcall. reflexivity.
    - rewrite Hm0. apply in_or_app. right. right. left. reflexivity.
    - rewrite E. unfold sendUserMessage. simpl. intros Hx.
      specialize (Htm c Hx). unfold c in Htm. lia.
    - rewrite Hl0. intros Hx. apply in_app_or in Hx.
      destruct Hx as [Hx|[Hx|[Hx|[Hx|[]]]]]; try discriminate.
      specialize (Hlog c Hx). unfold c in Hlog. lia. }
  assert (Hc0 : (c < sends (step w EvSend))%nat).
  { rewrite E. unfold sendUserMessage. simpl. unfold c. lia. }
  destruct (awaiting_run c (placeholder w) mid (step w EvSend) Hmid
              (flights_known_step w EvSend Hfl)
              (ids_known_step w EvSend Hfl Hids)
              (tidy_step w EvSend Hfl Hids Htidy) Hc0 Hstart)
    as [Htidy1 Hwait].
  fold w1 in Htidy1, Hwait.
  destruct (Hwait Hfly) as [H1 [_ [H3 [H4 H5]]]].
  destruct Htidy1 as [_ [_ [_ Hnd]]].
  split; [exact Hm0|]. split; [exact Hl0|]. split; [exact H3|].
  split; [exact H4|]. split; [exact H5|].
  (* the reply *)
  destruct (step_reply_cases w1 c r) as [[Hn _]|[f [rest [Htake Er]]]].
  { unfold in_flight in Hfly. rewrite (take_flight_none _ _ Hn) in Hfly.
    discriminate. }
  destruct (take_flight_some _ _ _ _ Htake) as [Hf [Hcall _]].
  destruct (H1 f Hf Hcall) as [_ Hfph].
  destruct (patch_timeline_unique (patch_of r) (placeholder w)
              (messages (store w1)) Hnd H3 eq_refl) as [ms' [Hp Hin]].
  assert (Ed : deliver f r (store w1)
               = ({| sessionId := sessionId (store w1); messages := ms';
                     nextMessageId := nextMessageId (store w1);
                     storeError := storeError (store w1) |},
                  ObsResolved c (reply_ok r))).
  { unfold deliver, updatePlaceholder. rewrite Hfph, Hp, Hcall.
    reflexivity. }
  rewrite Er, Ed. simpl.
  split; [exact Hin|]. split; [rewrite <- app_assoc; reflexivity|].
  split; [reflexivity|].
  unfold step. simpl.
  destruct (take_timer_fresh c (timers w1) H4) as [_ Hsome].
  rewrite Hsome. simpl. rewrite <- !app_assoc. reflexivity.
Qed.

(* ------------------------------------------------------------------ *)
(** ** Refreshes in any run *)

Lemma deliver_settles (f : Flight) (r : BackendReply) (s : SessionStore) :
  reply_settled (flight_call f) (snd (deliver f r s)).
Proof.
  destruct (deliver_cases f r s) as [[ms' [_ E]]|[_ E]]; rewrite E; simpl.
  - left. eexists. reflexivity.
  - right. reflexivity.
Qed.

Lemma refresh_follows_reply_step (w : World) (e : Event) :
  refresh_follows_reply w -> refresh_follows_reply (step w e).
Proof.
  intros [Htm Hlog]. destruct e;
    try (quiet_step w; unfold refresh_follows_reply; rewrite Ht, Hl;
         exact (conj Htm Hlog)).
  - destruct (step_send_cases w) as [E|[_ [_ E]]]; rewrite E;
      [exact (conj Htm Hlog)|].
    unfold refresh_follows_reply, sendUserMessage. simpl. split.
    + intros c Hc. destruct (Htm c Hc) as [a [Ha Hin]].
      exists a. split; [exact Ha|]. apply in_or_app. left. exact Hin.
    + intros c.
      change (log w ++ [ObsUser (sends w); ObsPlaceholder (sends w);
                        ObsBackendCall (sends w)])
        with (log w ++ [ObsUser (sends w)]
              ++ [ObsPlaceholder (sends w)] ++ [ObsBackendCall (sends w)]).
      rewrite !app_assoc.
      repeat (apply before_snoc; [|discriminate]). apply Hlog.
  - destruct (step_reply_cases w c r) as [[_ E]|[f [rest [Htake E]]]];
      rewrite E; [exact (conj Htm Hlog)|].
    destruct (take_flight_some _ _ _ _ Htake) as [_ [Hcall _]].
    pose proof (deliver_settles f r (store w)) as Hset.
    rewrite Hcall in Hset.
    unfold refresh_follows_reply. simpl. split.
    + intros c' Hc'. apply in_app_or in Hc'. destruct Hc' as [Hc'|[<-|[]]].
      * destruct (Htm c' Hc') as [a [Ha Hin]]. exists a.
        split; [exact Ha|]. apply in_or_app. left. apply in_or_app.
        left. exact Hin.
      * exists (snd (deliver f r (store w))). split; [exact Hset|].
        apply in_or_app. left. apply in_or_app. right. left. reflexivity.
    + intros c'. apply before_snoc; [|discriminate].
      apply before_snoc; [apply Hlog|]. intros Ex. exfalso.
      apply (deliver_no_refresh f r (store w) c'). exact Ex.
  - destruct (step_timer_cases w c) as [E|[rest [Htake E]]]; rewrite E;
      [exact (conj Htm Hlog)|].
    destruct (take_timer_some _ _ _ Htake) as [Hc Hsub].
    unfold refresh_follows_reply. simpl. split.
    + intros c' Hc'. destruct (Htm c' (Hsub c' Hc')) as [a [Ha Hin]].
      exists a. split; [exact Ha|]. apply in_or_app. left. exact Hin.
    + intros c'. apply before_snoc; [apply Hlog|].
      intros Ex. injection Ex as <-. apply Htm. exact Hc.
  - exact (conj Htm Hlog).
Qed.

(** In every run, new chats included, the refresh set up after call [c]
    starts only after the hook was done with the reply to [c]. *)
Lemma refresh_after_reply (es : list Event) (c : nat) :
  before (reply_settled c) (ObsRefresh c) (log (run initialWorld es)).
Proof.
  assert (H : refresh_follows_reply (run initialWorld es)).
  { apply (run_invariant refresh_follows_reply (fun _ => true)).
    - intros w e _. apply refresh_follows_reply_step.
    - apply forallb_true.
    - split; [intros t []|]. intros t. apply before_nil. }
  apply H.
Qed.

End Dispatcher.

(* ================================================================== *)
(** * The theorems at work *)
(* ================================================================== *)

(** The scenario of the specification: "draw a cat" without attachment
    adds the user message and a loading placeholder; the reply turns the
    placeholder into the answer with its image. *)
Example draw_a_cat_scenario :
  let w := run unit [] (initialWorld unit) (draw_a_cat unit) in
  map (fun m => (role unit m, text unit m, isLoading unit m))
      (messages unit (store unit w))
  = [(user, js "draw a cat", false); (model, [], true)]
  /\ map (fun m => (role unit m, text unit m,
                    length (msg_attachments unit m), isLoading unit m))
         (messages unit
            (store unit (step unit [] w (EvReply unit 0 (cat_reply unit)))))
     = [(user, js "draw a cat", 0%nat, false);
        (model, js "Here's your cat!", 1%nat, false)].
Proof. split; reflexivity. Qed.



Lemma video_end_advances_modulo_length_witness :
  [clip "A"; clip "B"; clip "C"] <> []
  /\ 0 <= 2 < Z.of_nat (length [clip "A"; clip "B"; clip "C"])
  /\ handleVideoEnd [clip "A"; clip "B"; clip "C"] 2
     = (2 + 1) mod Z.of_nat (length [clip "A"; clip "B"; clip "C"]).
Proof.
  split; [discriminate|]. split; [simpl; lia|].
  apply (video_end_advances_modulo_length
           [clip "A"; clip "B"; clip "C"] 2);
    [discriminate | simpl; lia].
Defined.

Lemma send_blank_is_noop_witness :
  let w := run unit [] (initialWorld unit) [EvChange unit (js "   ")] in
  forallb isWhiteSpace (inputValue (ui unit w)) = true
  /\ attachments (ui unit w) = []
  /\ step unit [] w (EvSend unit) = w.
Proof.
  split; [reflexivity|]. split; [reflexivity|].
  apply (send_blank_is_noop unit []
           (run unit [] (initialWorld unit) [EvChange unit (js "   ")]));
    reflexivity.
Defined.

Lemma send_call_order_until_new_chat_witness :
  let w := run unit [] (initialWorld unit) [EvChange unit (js "draw a cat")] in
  let mid := [EvChange unit (js "and a dog");
              EvAssets unit {| assets_success := false;
                               assets_list := None |}] in
  isProcessing unit w = false
  /\ negb (truthy (trim (inputValue (ui unit w))))
     && (length (attachments (ui unit w)) =? 0)%nat = false
  /\ forallb (fun e => negb (is_new_chat unit e)) mid = true
  /\ in_flight unit (sends unit w)
       (run unit [] (step unit [] w (EvSend unit)) mid) = true
  /\ log unit
       (step unit []
          (step unit [] (run unit [] (step unit [] w (EvSend unit)) mid)
             (EvReply unit (sends unit w) (cat_reply unit)))
          (EvTimer unit (sends unit w)))
     = log unit (run unit [] (step unit [] w (EvSend unit)) mid)
       ++ [ObsResolved (sends unit w) (reply_ok unit (cat_reply unit));
           ObsScheduled (sends unit w); ObsRefresh (sends unit w)].
Proof.
  split; [reflexivity|]. split; [reflexivity|]. split; [reflexivity|].
  split; [reflexivity|].
  apply (send_call_order_until_new_chat unit []
           [EvChange unit (js "draw a cat")]
           [EvChange unit (js "and a dog");
            EvAssets unit {| assets_success := false;
                             assets_list := None |}]
           (cat_reply unit)); reflexivity.
Defined.

(** C7 as it was stated fails: when a new chat is started while the call
    is in flight, the reply finds no placeholder to resolve, and the
    refresh is scheduled and starts all the same: no resolution of the
    placeholder comes before it, and the timeline holds no resolved
    message. *)
Lemma refresh_without_resolution :
  let w := run unit [] (initialWorld unit)
             (draw_a_cat unit
              ++ [EvNewChat unit; EvReply unit 0 (cat_reply unit);
                  EvTimer unit 0]) in
  log unit w
  = [ObsUser 0; ObsPlaceholder 0; ObsBackendCall 0; ObsNotFound 0;
     ObsScheduled 0; ObsRefresh 0]
  /\ In (ObsRefresh 0) (log unit w)
  /\ ~ In (ObsResolved 0 true) (log unit w)
  /\ ~ In (ObsResolved 0 false) (log unit w)
  /\ messages unit (store unit w) = [].
Proof.
  split; [reflexivity|]. split; [simpl; tauto|].
  split; [|split; [|reflexivity]];
    simpl; intros H; repeat (destruct H as [H|H]; [discriminate|]);
    exact H.
Qed.

Lemma unreadable_file_never_attached_witness :
  let p := select (Some [unreadable; picture])
                  {| picker_ui := initialUI; reading := [] |} in
  nth_error (reading p) 0 = Some {| reader_file := unreadable |}
  /\ file_contents unreadable = None
  /\ attachments (picker_ui (complete p 0)) = attachments (picker_ui p).
Proof.
  split; [reflexivity|]. split; [reflexivity|].
  apply (unreadable_file_never_attached
           (select (Some [unreadable; picture])
                   {| picker_ui := initialUI; reading := [] |})
           0%nat unreadable); reflexivity.
Defined.

Lemma send_clears_input_and_attachments_witness :
  let w := run unit [] (initialWorld unit) [EvChange unit (js "draw a cat")] in
  negb (truthy (trim (inputValue (ui unit w))))
  && (length (attachments (ui unit w)) =? 0)%nat = false
  /\ isProcessing unit w = false
  /\ inputValue
       (ui unit (step unit [] (step unit [] w (EvSend unit))
                   (EvReply unit (sends unit w) (ReplyFail unit)))) = [].
Proof.
  split; [reflexivity|]. split; [reflexivity|].
  apply (send_clears_input_and_attachments unit []
           (run unit [] (initialWorld unit)
                [EvChange unit (js "draw a cat")])
           Fulfilled (ReplyFail unit)); reflexivity.
Defined.

(* ================================================================== *)
(** * Removing and previewing attachments *)
(* ================================================================== *)

Lemma remove_at_nth_error {A} (l : list A) :
  forall index j : nat,
    nth_error (remove_at index l) j
    = if (j <? index)%nat then nth_error l j else nth_error l (S j).
Proof.
  induction l as [|x l IH]; intros index j; simpl.
  - destruct (j <? index)%nat; destruct j; reflexivity.
  - destruct index as [|index]; [reflexivity|].
    destruct j as [|j]; [reflexivity|].
    simpl. rewrite IH. reflexivity.
Qed.

Lemma remove_at_length {A} (l : list A) :
  forall index : nat,
    length (remove_at index l)
    = if (index <? length l)%nat then pred (length l) else length l.
Proof.
  induction l as [|x l IH]; intros index; simpl; [reflexivity|].
  destruct index as [|index]; [reflexivity|].
  simpl. rewrite IH.
  change (S index <? S (length l))%nat with (index <? length l)%nat.
  destruct (Nat.ltb_spec index (length l)); [|reflexivity].
  destruct (length l); [lia|reflexivity].
Qed.

Lemma remove_at_out_of_range {A} (l : list A) :
  forall index : nat, (length l <= index)%nat -> remove_at index l = l.
Proof.
  induction l as [|x l IH]; intros index H; simpl; [reflexivity|].
  destruct index as [|index]; [simpl in H; lia|].
  rewrite IH; [reflexivity|]. simpl in H. lia.
Qed.

(** X1: [removeAttachment(index)] takes out the entry at [index] and nothing
    else: the entries before it stay where they are, the entries after it
    move down by one, the list is one shorter; with an index past the end
    every entry stays and the length is kept; input, gallery and cinema
    state are not touched. *)
Theorem removeAttachment_removes_one :
  forall (u : UIState) (index j : nat),
    let u' := apply_actions u (removeAttachment index) in
    nth_error (attachments u') j
    = (if (j <? index)%nat then nth_error (attachments u) j
       else nth_error (attachments u) (S j))
    /\ length (attachments u')
       = (if (index <? length (attachments u))%nat
          then pred (length (attachments u))
          else length (attachments u))
    /\ inputValue u' = inputValue u
    /\ assets u' = assets u
    /\ showCinema u' = showCinema u
    /\ cinemaData u' = cinemaData u.
Proof.
  intros u index j u'. subst u'. simpl.
  split; [apply remove_at_nth_error|].
  split; [apply remove_at_length|]. repeat split.
Qed.

Lemma remove_at_last {A} (l : list A) (x : A) :
  remove_at (length l) (l ++ [x]) = l.
Proof.
  induction l as [|y l IH]; simpl; [reflexivity|]. rewrite IH. reflexivity.
Qed.

(** X3: removing the attachment that a reader has just appended, the one at
    the last index shown, gives back the state before it was appended. *)
Theorem remove_last_appended_attachment :
  forall (u : UIState) (f : File) (result : jsstring),
    apply_actions (apply_actions u (onload f result))
      (removeAttachment (length (attachments u)))
    = u.
Proof.
  intros u f result. simpl. rewrite remove_at_last. destruct u. reflexivity.
Qed.

Lemma split_comma_from_no_comma (s : jsstring) :
  forall acc : jsstring,
    forallb not_comma s = true ->
    split_comma_from acc s = [rev acc ++ s].
Proof.
  induction s as [|c rest IH]; intros acc H; simpl.
  - rewrite app_nil_r. reflexivity.
  - simpl in H. apply andb_prop in H. destruct H as [Hc Hrest].
    unfold not_comma in Hc. apply negb_true_iff in Hc. rewrite Hc.
    rewrite (IH (c :: acc) Hrest). simpl. rewrite <- app_assoc. reflexivity.
Qed.

Lemma split_comma_from_app (a : jsstring) :
  forall acc rest : jsstring,
    forallb not_comma a = true ->
    split_comma_from acc (a ++ 44%N :: rest)
    = (rev acc ++ a) :: split_comma_from [] rest.
Proof.
  induction a as [|c a IH]; intros acc rest H; simpl.
  - rewrite app_nil_r. reflexivity.
  - simpl in H. apply andb_prop in H. destruct H as [Hc Ha].
    unfold not_comma in Hc. apply negb_true_iff in Hc. rewrite Hc.
    rewrite (IH (c :: acc) rest Ha). simpl. rewrite <- app_assoc.
    reflexivity.
Qed.

Lemma forallb_not_comma_js_app (a b : jsstring) :
  forallb not_comma a = true -> forallb not_comma b = true ->
  forallb not_comma (a ++ b) = true.
Proof. intros Ha Hb. rewrite forallb_app, Ha, Hb. reflexivity. Qed.

(** X4: the record made from a data URL gives the data URL back: for an image
    file whose type and payload hold no comma and whose reader yields
    [data:<type>;base64,<payload>], [onload] appends the record with that
    type and that payload, and the preview rebuilds exactly the URL that was
    read. *)
Theorem preview_rebuilds_data_url :
  forall (f : File) (payload : jsstring),
    forallb not_comma (file_type f) = true ->
    forallb not_comma payload = true ->
    startsWith (file_type f) (js "image/") = true ->
    let result := js "data:" ++ file_type f ++ js ";base64," ++ payload in
    let att := {| data := Some payload; mimeType := file_type f;
                  att_type := image |} in
    onload f result = [AppendAttachment att]
    /\ attachmentPreview att = PreviewImage result.
Proof.
  intros f payload Ht Hp Himg result att. split; [|reflexivity].
  unfold onload. rewrite Himg. subst result att.
  replace (js "data:" ++ file_type f ++ js ";base64," ++ payload)
    with ((js "data:" ++ file_type f ++ js ";base64") ++ 44%N :: payload).
  - unfold split_comma. rewrite split_comma_from_app.
    + rewrite (split_comma_from_no_comma payload [] Hp). reflexivity.
    + apply forallb_not_comma_js_app; [reflexivity|].
      apply forallb_not_comma_js_app; [exact Ht|reflexivity].
  - rewrite <- !app_assoc. reflexivity.
Qed.

(** X5: what [split(',')[1]] makes of other results: without any comma the
    record is appended all the same, with [data] undefined, and an image
    preview then ends in the text "undefined"; with more than one comma only
    what stands between the first two is kept. *)
Theorem onload_payload_edges :
  forall (f : File) (a b c : jsstring),
    forallb not_comma a = true ->
    forallb not_comma b = true ->
    onload f a
    = [AppendAttachment
         {| data := None; mimeType := file_type f;
            att_type := if startsWith (file_type f) (js "image/")
                        then image else audio |}]
    /\ attachmentPreview
         {| data := None; mimeType := file_type f; att_type := image |}
       = PreviewImage
           (js "data:" ++ file_type f ++ js ";base64," ++ js "undefined")
    /\ onload f (a ++ 44%N :: b ++ 44%N :: c)
       = [AppendAttachment
            {| data := Some b; mimeType := file_type f;
               att_type := if startsWith (file_type f) (js "image/")
                           then image else audio |}].
Proof.
  intros f a b c Ha Hb. split; [|split; [reflexivity|]].
  - unfold onload, split_comma.
    rewrite (split_comma_from_no_comma a [] Ha). reflexivity.
  - unfold onload, split_comma.
    rewrite (split_comma_from_app a [] _ Ha).
    rewrite (split_comma_from_app b [] _ Hb). reflexivity.
Qed.

(** X2: an index past the end, as a stale preview could pass, removes
    nothing. *)
Theorem removeAttachment_past_the_end :
  forall (u : UIState) (index : nat),
    (length (attachments u) <= index)%nat ->
    apply_actions u (removeAttachment index) = u.
Proof.
  intros u index H. simpl. rewrite (remove_at_out_of_range _ _ H).
  destruct u. reflexivity.
Qed.

(* ================================================================== *)
(** * Selections read to the end *)
(* ================================================================== *)

Lemma remove_at_permutation {A} (l : list A) :
  forall (k : nat) (x : A),
    nth_error l k = Some x -> Permutation (x :: remove_at k l) l.
Proof.
  induction l as [|y l IH]; intros k x H; [destruct k; discriminate|].
  destruct k as [|k]; simpl in *.
  - injection H as ->. apply Permutation_refl.
  - apply perm_trans with (y :: x :: remove_at k l); [apply perm_swap|].
    apply perm_skip. apply IH. exact H.
Qed.

Lemma complete_all_reading (schedule : list nat) :
  forall p : Picker,
    Permutation
      (completion_order (reading p) schedule
       ++ reading (complete_all p schedule))
      (reading p).
Proof.
  unfold complete_all.
  induction schedule as [|k rest IH]; intros p; simpl.
  - apply Permutation_refl.
  - unfold complete at 2. unfold complete at 1.
    destruct (nth_error (reading p) k) as [r|] eqn:E.
    + simpl. eapply perm_trans; [|apply (remove_at_permutation _ _ _ E)].
      apply perm_skip.
      apply (IH {| picker_ui := apply_actions (picker_ui p)
                                  (reader_completes r);
                   reading := remove_at k (reading p) |}).
    + apply IH.
Qed.

Lemma complete_first_each_time (rs : list Reader) :
  forall u : UIState,
    complete_all {| picker_ui := u; reading := rs |}
                 (repeat 0%nat (length rs))
    = {| picker_ui :=
           fold_left (fun v r => apply_actions v (reader_completes r)) rs u;
         reading := [] |}.
Proof.
  unfold complete_all. induction rs as [|r rs IH]; intros u; simpl.
  - reflexivity.
  - unfold complete at 2. simpl. apply IH.
Qed.

Lemma readers_in_order_attachments (rs : list Reader) :
  forall u : UIState,
    attachments
      (fold_left (fun v r => apply_actions v (reader_completes r)) rs u)
    = attachments u ++ flat_map encoded rs.
Proof.
  induction rs as [|r rs IH]; intros u; simpl.
  - symmetry. apply app_nil_r.
  - rewrite IH, reader_completes_attachments, <- app_assoc. reflexivity.
Qed.

(** X6: once every reader of a selection has ended, in whatever order, nothing
    is lost and nothing comes twice: the list is the old one followed by a
    rearrangement of the records of the readable files in selection order;
    when the readers end in selection order, it is exactly that list. *)
Theorem selection_read_to_the_end :
  forall (u : UIState) (files : list File) (schedule : list nat),
    let p := select (Some files) {| picker_ui := u; reading := [] |} in
    reading (complete_all p schedule) = [] ->
    (exists added,
        attachments (picker_ui (complete_all p schedule))
        = attachments u ++ added
        /\ Permutation added (flat_map encoded (reading p)))
    /\ attachments
         (picker_ui (complete_all p (repeat 0%nat (length files))))
       = attachments u ++ flat_map encoded (reading p)
    /\ reading (complete_all p (repeat 0%nat (length files))) = [].
Proof.
  intros u files schedule p Hdone. split; [|split].
  - exists (flat_map encoded (completion_order (reading p) schedule)).
    split; [apply complete_all_attachments|].
    apply Permutation_flat_map.
    pose proof (complete_all_reading schedule p) as H.
    rewrite Hdone, app_nil_r in H. exact H.
  - subst p. unfold select. simpl.
    replace (length files)
      with (length (map (fun f => {| reader_file := f |}) files))
      by apply length_map.
    rewrite complete_first_each_time. simpl.
    apply readers_in_order_attachments.
  - subst p. unfold select. simpl.
    replace (length files)
      with (length (map (fun f => {| reader_file := f |}) files))
      by apply length_map.
    rewrite complete_first_each_time. reflexivity.
Qed.

(* ================================================================== *)
(** * The send controls *)
(* ================================================================== *)

Lemma jsstring_eqb_eq (a : jsstring) :
  forall b : jsstring, jsstring_eqb a b = true <-> a = b.
Proof.
  induction a as [|x a IH]; intros [|y b]; simpl;
    try (split; [discriminate|discriminate]); [tauto|].
  rewrite andb_true_iff, N.eqb_eq, IH. split.
  - intros [-> ->]. reflexivity.
  - intros H. injection H as -> ->. split; reflexivity.
Qed.

(** X8: the send button is enabled exactly when a click on it sends: the hook
    is not processing and [handleSend] would call [sendUserMessage]. *)
Theorem send_button_enabled_iff_click_sends :
  forall (processing : bool) (u : UIState),
    sendDisabled processing u = false
    <-> processing = false
        /\ handleSend u
           = [SetInputValue []; SetAttachments [];
              SendUserMessage (inputValue u) (attachments u)].
Proof.
  intros processing u. unfold sendDisabled, handleSend.
  destruct (negb (truthy (trim (inputValue u)))
            && (length (attachments u) =? 0)%nat);
    destruct processing; simpl; split;
    try discriminate; try (intros [H1 H2]; discriminate); auto.
Qed.

(** X9: through the keyboard a message is only sent by Enter without Shift,
    and then as by the button: with the input as typed, not trimmed, and
    the pending attachments, never with a blank input and no attachment;
    the default action of the key is prevented. *)
Theorem keyboard_sends_only_on_enter :
  forall (key : jsstring) (shiftKey : bool) (u : UIState)
         (t : jsstring) (atts : list Attachment),
    In (SendUserMessage t atts) (snd (handleKeyDown key shiftKey u)) ->
    key = js "Enter" /\ shiftKey = false
    /\ fst (handleKeyDown key shiftKey u) = true
    /\ t = inputValue u /\ atts = attachments u
    /\ (trim t <> [] \/ atts <> []).
Proof.
  intros key shiftKey u t atts. unfold handleKeyDown.
  destruct (jsstring_eqb key (js "Enter") && negb shiftKey) eqn:E;
    simpl; [|tauto].
  apply andb_prop in E. destruct E as [Hk Hs].
  apply jsstring_eqb_eq in Hk. apply negb_true_iff in Hs.
  unfold handleSend.
  destruct (negb (truthy (trim (inputValue u)))
            && (length (attachments u) =? 0)%nat) eqn:G; simpl; [tauto|].
  intros [H|[H|[H|[]]]]; try discriminate.
  injection H as <- <-. repeat split; try assumption.
  apply andb_false_iff in G. destruct G as [G|G].
  - left. apply negb_false_iff in G.
    destruct (trim (inputValue u)); [discriminate|discriminate].
  - right. destruct (attachments u); [discriminate|discriminate].
Qed.

(* ================================================================== *)
(** * Playing the playlist *)
(* ================================================================== *)

Lemma handleVideoEnd_mod (vs : list Asset) (i : Z) :
  vs <> [] -> 0 <= i < Z.of_nat (length vs) ->
  handleVideoEnd vs i = (i + 1) mod Z.of_nat (length vs).
Proof.
  intros Hne Hi.
  destruct (Z_lt_le_dec i (Z.of_nat (length vs) - 1)) as [Hlt|Hge].
  - rewrite handleVideoEnd_step by lia. symmetry. apply Z.mod_small. lia.
  - rewrite handleVideoEnd_wrap by lia.
    replace (i + 1) with (Z.of_nat (length vs)) by lia.
    symmetry. apply Z.mod_same. lia.
Qed.

Lemma playlist_length_pos (vs : list Asset) :
  vs <> [] -> 0 < Z.of_nat (length vs).
Proof. destruct vs; [congruence|]. simpl length. lia. Qed.

(** X10: after [n] videos have ended, starting from the first, the index is [n]
    modulo the length of the playlist: the videos are shown in playlist
    order, round after round. *)
Theorem index_after_n_videos :
  forall (vs : list Asset) (n : nat),
    vs <> [] ->
    Nat.iter n (handleVideoEnd vs) 0 = Z.of_nat n mod Z.of_nat (length vs).
Proof.
  intros vs n Hne. pose proof (playlist_length_pos vs Hne) as Hlen.
  induction n as [|n IH].
  - simpl. symmetry. apply Z.mod_0_l. lia.
  - simpl Nat.iter. rewrite IH.
    rewrite handleVideoEnd_mod; [|exact Hne|apply Z.mod_pos_bound; exact Hlen].
    rewrite Zplus_mod_idemp_l. f_equal. lia.
Qed.

(** X11: whatever the number of videos that have ended, [CinemaMode] shows a
    video of the playlist, the one at the current index: reading
    [videos[currentIndex]] never fails, and the progress shown lies between
    1 and the length of the playlist. *)
Theorem cinema_always_shows_a_video :
  forall (vs : list Asset) (au : option Asset) (n : nat),
    vs <> [] ->
    let i := Nat.iter n (handleVideoEnd vs) 0 in
    exists (video : Asset) (view : CinemaView),
      nth_error vs (Z.to_nat i) = Some video
      /\ CinemaMode vs au i = RenderView view
      /\ video_src view = or_empty (asset_url video)
      /\ caption view = asset_prompt video
      /\ progress view = (i + 1, Z.of_nat (length vs))
      /\ 1 <= fst (progress view) <= snd (progress view).
Proof.
  intros vs au n Hne i.
  pose proof (playlist_length_pos vs Hne) as Hlen.
  assert (Hi : 0 <= i < Z.of_nat (length vs)).
  { subst i. rewrite index_after_n_videos by exact Hne.
    apply Z.mod_pos_bound. exact Hlen. }
  destruct (nth_error vs (Z.to_nat i)) as [video|] eqn:E.
  - exists video. unfold CinemaMode, video_at.
    destruct (Nat.eqb_spec (length vs) 0) as [H0|_]; [lia|].
    destruct (Z.ltb_spec i 0) as [Hneg|_]; [lia|].
    rewrite E. eexists. repeat split; simpl; lia.
  - exfalso. apply nth_error_None in E. lia.
Qed.

(** X12: with a single video an [ended] event leaves the index where it is, so
    nothing is rendered again and nothing is played again; with two or more
    videos every [ended] event changes the index and plays the next
    video. *)
Theorem single_video_is_not_replayed :
  forall (vs : list Asset) (au : option Asset) (i : Z),
    vs <> [] ->
    0 <= i < Z.of_nat (length vs) ->
    (handleVideoEnd vs i = i <-> length vs = 1%nat)
    /\ endedEffects vs au i
       = if (length vs =? 1)%nat then [] else [PlayVideo].
Proof.
  intros vs au i Hne Hi.
  assert (Hiff : handleVideoEnd vs i = i <-> length vs = 1%nat).
  { unfold handleVideoEnd.
    destruct (Z.ltb_spec i (Z.of_nat (length vs) - 1)); split; lia. }
  split; [exact Hiff|].
  unfold endedEffects.
  destruct (Nat.eqb_spec (length vs) 1) as [H1|H1].
  - apply Hiff in H1. rewrite H1, Z.eqb_refl. reflexivity.
  - destruct (Z.eqb_spec (handleVideoEnd vs i) i) as [E|_].
    + apply Hiff in E. contradiction.
    + pose proof (handleVideoEnd_in_range vs i Hne Hi) as Hr.
      unfold CinemaMode, video_at.
      destruct (Nat.eqb_spec (length vs) 0) as [H0|_]; [lia|].
      destruct (Z.ltb_spec (handleVideoEnd vs i) 0) as [Hneg|_]; [lia|].
      destruct (nth_error vs (Z.to_nat (handleVideoEnd vs i))) eqn:E;
        [reflexivity|].
      apply nth_error_None in E. lia.
Qed.

(** X13: when [CinemaMode] is not mounted and [getCinemaData] succeeds with
    at least one video, [CinemaMode] is mounted, at index 0, with the first
    video on screen and progress 1 of the length; its two effects play the
    video, the audio exactly when the audio has a non-empty url, and the
    video again; closing leaves nothing on screen, at any index, and keeps
    the playlist. *)
Theorem cinema_opens_on_first_video :
  forall (u : UIState) (first : Asset) (others : list Asset)
         (au : option Asset),
    cinemaMounted u = false ->
    let d := {| videos := first :: others; cinema_audio := au |} in
    let entered :=
      apply_actions u
        (handleCinemaMode_resume
           {| cinema_success := true; cinema_data := Some d |}) in
    let sound :=
      match au with
      | Some a => match asset_url a with
                  | Some s => if truthy s then Some s else None
                  | None => None
                  end
      | None => None
      end in
    cinemaMounted entered = true
    /\ renderCinema entered 0
       = RenderView {| progress := (1, Z.of_nat (S (length others)));
                       video_src := or_empty (asset_url first);
                       audio_src := sound;
                       caption := asset_prompt first |}
    /\ sequencerState entered 0 = Playing 0
    /\ mountEffects (renderCinema entered 0)
       = (PlayVideo
          :: match sound with Some _ => [PlayAudio] | None => [] end)
         ++ [PlayVideo]
    /\ (forall i, renderCinema (apply_actions entered onClose) i = RenderNull)
    /\ (forall i, sequencerState (apply_actions entered onClose) i = Idle)
    /\ cinemaData (apply_actions entered onClose) = Some d.
Proof.
  intros u first others au _ d entered sound. repeat split.
Qed.

(* ================================================================== *)
(** * The gallery *)
(* ================================================================== *)

(** X14: whatever [getAssets] answers, [loadAssets] touches the cached list
    only: input, attachments and cinema state stay; an answer that claims
    success but carries no list keeps the cache, and a successful empty
    list empties it. *)
Theorem loadAssets_only_touches_the_cache :
  forall (u : UIState) (result : AssetsResult),
    let u' := apply_actions u (loadAssets_resume result) in
    inputValue u' = inputValue u
    /\ attachments u' = attachments u
    /\ showCinema u' = showCinema u
    /\ cinemaData u' = cinemaData u
    /\ (u' = u \/ assets_list result = Some (assets u'))
    /\ apply_actions u
         (loadAssets_resume
            {| assets_success := true; assets_list := None |}) = u
    /\ assets (apply_actions u
                 (loadAssets_resume
                    {| assets_success := true; assets_list := Some [] |}))
       = [].
Proof.
  intros u [success [fetched|]] u'; subst u'; unfold loadAssets_resume;
    destruct success; simpl; repeat split; auto.
Qed.

Lemma filter_length_zero {A} (f : A -> bool) (l : list A) :
  (length (filter f l) =? 0)%nat = negb (existsb f l).
Proof.
  induction l as [|x l IH]; simpl; [reflexivity|].
  destruct (f x); simpl; [reflexivity|exact IH].
Qed.

(** X15: the Cinema Mode button is enabled exactly when the cached gallery
    holds a video; so after a refresh it follows the fetched list, and a
    refresh that fails leaves it as it was. *)
Theorem cinema_button_follows_the_gallery :
  forall (u : UIState) (fetched : list Asset) (other : option (list Asset)),
    (cinemaDisabled u = false
     <-> exists a, In a (assets u) /\ asset_type a = video_asset)
    /\ cinemaDisabled
         (apply_actions u
            (loadAssets_resume
               {| assets_success := true; assets_list := Some fetched |}))
       = negb (existsb is_video fetched)
    /\ cinemaDisabled
         (apply_actions u
            (loadAssets_resume
               {| assets_success := false; assets_list := other |}))
       = cinemaDisabled u.
Proof.
  intros u fetched other. split; [|split].
  - unfold cinemaDisabled. rewrite filter_length_zero, negb_false_iff.
    rewrite existsb_exists. split.
    + intros [a [Hin Hv]]. exists a. split; [exact Hin|].
      unfold is_video in Hv. destruct (asset_type a); try discriminate.
      reflexivity.
    + intros [a [Hin Hv]]. exists a. split; [exact Hin|].
      unfold is_video. rewrite Hv. reflexivity.
  - unfold cinemaDisabled. simpl. apply filter_length_zero.
  - reflexivity.
Qed.

(** X16: an asset is only shared when sharing is available and the asset has a
    non-empty url; what is shared is that url, and the text that goes with
    it is never empty: the prompt of the asset, or the stock sentence when
    the prompt is missing or empty. *)
Theorem share_needs_a_url :
  forall (canShare : bool) (asset : Asset) (d : ShareData),
    handleAssetShare canShare asset = Some d ->
    canShare = true
    /\ asset_url asset = Some (share_url d)
    /\ share_url d <> []
    /\ share_text d <> []
    /\ (asset_prompt asset = Some (share_text d)
        \/ share_text d = js "Created with Lucy").
Proof.
  intros canShare asset d. unfold handleAssetShare.
  destruct (asset_url asset) as [u|]; [|discriminate].
  destruct canShare; [|discriminate]. simpl.
  destruct u as [|c u]; simpl; [discriminate|].
  intros H. injection H as <-. simpl.
  split; [reflexivity|]. split; [reflexivity|]. split; [discriminate|].
  unfold or_default. destruct (asset_prompt asset) as [[|x s]|]; simpl.
  - split; [discriminate|right; reflexivity].
  - split; [discriminate|left; reflexivity].
  - split; [discriminate|right; reflexivity].
Qed.

(** X17: the chat area is never empty: it shows the timeline as soon as there
    is one, and the intro alone before; the quick prompts, the first three
    of the list at most, are offered only while the intro is shown. *)
Theorem intro_shown_until_first_message :
  forall (A B : Type) (intro : A) (messages : list A) (prompts : list B),
    displayMessages intro messages <> []
    /\ length (displayMessages intro messages)
       = Nat.max 1 (length messages)
    /\ ((displayMessages intro messages = messages
         /\ quickPrompts prompts messages = [])
        \/ (messages = []
            /\ displayMessages intro messages = [intro]
            /\ quickPrompts prompts messages = firstn 3 prompts))
    /\ (length (quickPrompts prompts messages) <= 3)%nat.
Proof.
  intros A B intro messages prompts.
  unfold displayMessages, quickPrompts.
  destruct messages as [|m ms]; cbn -[firstn].
  - split; [discriminate|]. split; [reflexivity|].
    split; [right; repeat split|]. apply firstn_le_length.
  - split; [discriminate|]. split; [reflexivity|].
    split; [left; split; reflexivity|]. lia.
Qed.

(** X18: a quick prompt that is not blank can be sent as it is: after the click
    on it the send button is enabled unless the hook is processing, and
    sending sends exactly the prompt, with the attachments that were
    pending, and empties the input. *)
Theorem quick_prompt_can_be_sent :
  forall (u : UIState) (prompt : jsstring),
    truthy (trim prompt) = true ->
    let u' := apply_actions u (promptClicked prompt) in
    sendDisabled false u' = false
    /\ handleSend u'
       = [SetInputValue []; SetAttachments [];
          SendUserMessage prompt (attachments u)]
    /\ inputValue (apply_actions u' (handleSend u')) = []
    /\ attachments (apply_actions u' (handleSend u')) = [].
Proof.
  intros u prompt H u'. subst u'. unfold sendDisabled, handleSend. simpl.
  rewrite H. simpl. repeat split.
Qed.

(** X7: a file still being read when the message is sent does not go with
    that message: the call gets the attachments pending at the click, the
    list is emptied, and when the reader ends its record is the only one
    pending, for the next message. *)
Theorem late_attachment_waits_for_next_message :
  forall (p : Picker) (k : nat) (r : Reader),
    nth_error (reading p) k = Some r ->
    negb (truthy (trim (inputValue (picker_ui p))))
    && (length (attachments (picker_ui p)) =? 0)%nat = false ->
    let sent := handleSend (picker_ui p) in
    let p' := {| picker_ui := apply_actions (picker_ui p) sent;
                 reading := reading p |} in
    sent = [SetInputValue []; SetAttachments [];
            SendUserMessage (inputValue (picker_ui p))
                            (attachments (picker_ui p))]
    /\ attachments (picker_ui (complete p' k)) = encoded r
    /\ inputValue (picker_ui (complete p' k)) = [].
Proof.
  intros p k r Hk Hguard sent p'.
  assert (Hs : sent = [SetInputValue []; SetAttachments [];
                       SendUserMessage (inputValue (picker_ui p))
                                       (attachments (picker_ui p))]).
  { subst sent. unfold handleSend. rewrite Hguard. reflexivity. }
  split; [exact Hs|]. subst p'. unfold complete. simpl. rewrite Hk. simpl.
  rewrite Hs. rewrite reader_completes_attachments. simpl.
  split; [reflexivity|].
  rewrite reader_completes_encoded. destruct (encoded r) as [|a l] eqn:E.
  - reflexivity.
  - unfold encoded in E.
    destruct (file_contents (reader_file r)); [|discriminate].
    injection E as <- <-. reflexivity.
Qed.

(* ================================================================== *)
(** * These properties at work *)
(* ================================================================== *)

Lemma removeAttachment_past_the_end_witness :
  let u := apply_actions initialUI (onload picture (js "data:image/png;base64,AA==")) in
  (length (attachments u) <= 5)%nat
  /\ apply_actions u (removeAttachment 5) = u.
Proof.
  split; [simpl; lia|].
  apply (removeAttachment_past_the_end
           (apply_actions initialUI
              (onload picture (js "data:image/png;base64,AA==")))
           5%nat).
  simpl; lia.
Defined.

Lemma preview_rebuilds_data_url_witness :
  forallb not_comma (file_type picture) = true
  /\ forallb not_comma (js "iVBORw0KGgo=") = true
  /\ startsWith (file_type picture) (js "image/") = true
  /\ attachmentPreview
       {| data := Some (js "iVBORw0KGgo="); mimeType := file_type picture;
          att_type := image |}
     = PreviewImage (js "data:image/png;base64,iVBORw0KGgo=").
Proof.
  split; [reflexivity|]. split; [reflexivity|]. split; [reflexivity|].
  apply (preview_rebuilds_data_url picture (js "iVBORw0KGgo="));
    reflexivity.
Defined.

Lemma onload_payload_edges_witness :
  forallb not_comma (js "data:") = true
  /\ forallb not_comma (js "AAAA") = true
  /\ onload song (js "data:" ++ 44%N :: js "AAAA" ++ 44%N :: js "BBBB")
     = [AppendAttachment
          {| data := Some (js "AAAA"); mimeType := file_type song;
             att_type := audio |}].
Proof.
  split; [reflexivity|]. split; [reflexivity|].
  apply (onload_payload_edges song (js "data:") (js "AAAA") (js "BBBB"));
    reflexivity.
Defined.

Lemma selection_read_to_the_end_witness :
  let p := select (Some [picture; unreadable; song])
                  {| picker_ui := initialUI; reading := [] |} in
  reading (complete_all p [2%nat; 0%nat; 0%nat]) = []
  /\ exists added,
       attachments (picker_ui (complete_all p [2%nat; 0%nat; 0%nat]))
       = attachments initialUI ++ added
       /\ Permutation added (flat_map encoded (reading p)).
Proof.
  split; [reflexivity|].
  apply (selection_read_to_the_end initialUI [picture; unreadable; song]
           [2%nat; 0%nat; 0%nat]).
  reflexivity.
Defined.

Lemma keyboard_sends_only_on_enter_witness :
  let u := apply_actions initialUI [SetInputValue (js " hi ")] in
  In (SendUserMessage (js " hi ") [])
     (snd (handleKeyDown (js "Enter") false u))
  /\ (trim (js " hi ") <> [] \/ @nil Attachment <> []).
Proof.
  split; [simpl; right; right; left; reflexivity|].
  apply (keyboard_sends_only_on_enter (js "Enter") false
           (apply_actions initialUI [SetInputValue (js " hi ")])
           (js " hi ") []).
  simpl; right; right; left; reflexivity.
Defined.

Lemma index_after_n_videos_witness :
  [clip "A"; clip "B"; clip "C"] <> []
  /\ Nat.iter 7 (handleVideoEnd [clip "A"; clip "B"; clip "C"]) 0
     = Z.of_nat 7 mod Z.of_nat (length [clip "A"; clip "B"; clip "C"]).
Proof.
  split; [discriminate|].
  apply (index_after_n_videos [clip "A"; clip "B"; clip "C"] 7).
  discriminate.
Defined.

Lemma cinema_always_shows_a_video_witness :
  [clip "A"; clip "B"] <> []
  /\ exists (video : Asset) (view : CinemaView),
       nth_error [clip "A"; clip "B"]
         (Z.to_nat (Nat.iter 5 (handleVideoEnd [clip "A"; clip "B"]) 0))
       = Some video
       /\ CinemaMode [clip "A"; clip "B"] None
            (Nat.iter 5 (handleVideoEnd [clip "A"; clip "B"]) 0)
          = RenderView view
       /\ video_src view = or_empty (asset_url video)
       /\ caption view = asset_prompt video
       /\ progress view
          = (Nat.iter 5 (handleVideoEnd [clip "A"; clip "B"]) 0 + 1,
             Z.of_nat (length [clip "A"; clip "B"]))
       /\ 1 <= fst (progress view) <= snd (progress view).
Proof.
  split; [discriminate|].
  apply (cinema_always_shows_a_video [clip "A"; clip "B"] None 5).
  discriminate.
Defined.

Lemma single_video_is_not_replayed_witness :
  [clip "A"] <> []
  /\ 0 <= 0 < Z.of_nat (length [clip "A"])
  /\ endedEffects [clip "A"] None 0
     = if (length [clip "A"] =? 1)%nat then [] else [PlayVideo].
Proof.
  split; [discriminate|]. split; [simpl; lia|].
  apply (single_video_is_not_replayed [clip "A"] None 0);
    [discriminate | simpl; lia].
Defined.

Lemma share_needs_a_url_witness :
  handleAssetShare true (clip "A")
  = Some {| share_title := js "Check out what I created with Lucy!";
            share_text := js "Created with Lucy";
            share_url := js "A" |}
  /\ js "Created with Lucy" <> [].
Proof.
  split; [reflexivity|].
  apply (share_needs_a_url true (clip "A")
           {| share_title := js "Check out what I created with Lucy!";
              share_text := js "Created with Lucy";
              share_url := js "A" |}).
  reflexivity.
Defined.

Lemma quick_prompt_can_be_sent_witness :
  truthy (trim (js "Draw a cat")) = true
  /\ handleSend (apply_actions initialUI (promptClicked (js "Draw a cat")))
     = [SetInputValue []; SetAttachments [];
        SendUserMessage (js "Draw a cat") (attachments initialUI)].
Proof.
  split; [reflexivity|].
  apply (quick_prompt_can_be_sent initialUI (js "Draw a cat")).
  reflexivity.
Defined.

Lemma late_attachment_waits_for_next_message_witness :
  let p := select (Some [picture])
             {| picker_ui := apply_actions initialUI [SetInputValue (js "hi")];
                reading := [] |} in
  nth_error (reading p) 0 = Some {| reader_file := picture |}
  /\ negb (truthy (trim (inputValue (picker_ui p))))
     && (length (attachments (picker_ui p)) =? 0)%nat = false
  /\ attachments
       (picker_ui
          (complete
             {| picker_ui :=
                  apply_actions (picker_ui p) (handleSend (picker_ui p));
                reading := reading p |} 0))
     = encoded {| reader_file := picture |}.
Proof.
  split; [reflexivity|]. split; [reflexivity|].
  apply (late_attachment_waits_for_next_message
           (select (Some [picture])
              {| picker_ui :=
                   apply_actions initialUI [SetInputValue (js "hi")];
                 reading := [] |})
           0%nat {| reader_file := picture |}); reflexivity.
Defined.

Lemma cinema_opens_on_first_video_witness :
  cinemaMounted initialUI = false
  /\ mountEffects
       (renderCinema
          (apply_actions initialUI
             (handleCinemaMode_resume
                {| cinema_success := true;
                   cinema_data :=
                     Some {| videos := [clip "A"; clip "B"];
                             cinema_audio := Some (clip "tune") |} |})) 0)
     = [PlayVideo; PlayAudio; PlayVideo].
Proof.
  split; [reflexivity|].
  apply (cinema_opens_on_first_video initialUI (clip "A") [clip "B"]
           (Some (clip "tune"))).
  reflexivity.
Defined.
